(** * Harmonization step of the marketplace pipeline

    A shallow embedding of [steps/03_harmonize_data.py]: the declaration of
    the user-defined function [get_city_for_airport], the list of views
    [pipeline], the script that submits them to the warehouse, the handler
    [main] carried in the function's body, and the query of the
    [flight_emissions] view. *)

From Stdlib Require Import ZArith QArith List Ascii String Lia.
From stdpp Require Import base option list gmap strings.
Import ListNotations.

Local Open Scope string_scope.
Local Open Scope list_scope.

(** ** Declarations sent to the warehouse

    The classes of [snowflake.core] the script instantiates, as records of
    the keyword arguments it passes. *)

Record Argument := { arg_name : string; arg_datatype : string }.

(** [ReturnDataType] is the return of a scalar function, [ReturnTable] that
    of a table function. *)
Inductive ReturnType :=
| ReturnDataType (datatype : string)
| ReturnTable (column_list : list (string * string)).

Record PythonFunction :=
  { runtime_version : string; packages : list string; handler : string }.

Record UserDefinedFunction :=
  { udf_name : string;
    arguments : list Argument;
    return_type : ReturnType;
    language_config : PythonFunction;
    body : string }.

Record ViewColumn := { column_name : string }.

Record View :=
  { view_name : string; columns : list ViewColumn; query : string }.

Inductive CreateMode := error_if_exists | or_replace | if_not_exists.

(** The double quote character, which occurs in the handler's source text. *)
Definition dquote : string := String (ascii_of_nat 34) EmptyString.

Definition map_city_to_airport : UserDefinedFunction :=
  {| udf_name := "get_city_for_airport";
     arguments := [ {| arg_name := "iata"; arg_datatype := "VARCHAR" |} ];
     return_type := ReturnDataType "VARCHAR";
     language_config :=
       {| runtime_version := "3.11";
          packages := [ "snowflake-snowpark-python" ];
          handler := "main" |};
     body :=
       "
from snowflake.snowpark.files import SnowflakeFile
from _snowflake import vectorized
import pandas
import json

@vectorized(input=pandas.DataFrame)
def main(df):
    airport_list = json.loads(
        SnowflakeFile.open(" ++ dquote ++
       "@bronze.raw/airport_list.json" ++ dquote ++
       ", 'r', require_scoped_url = False).read()
    )
    airports = {airport[3]: airport[1] for airport in airport_list}
    return df[0].apply(lambda iata: airports.get(iata.upper()))
" |}.

Definition flight_emissions : View :=
  {| view_name := "flight_emissions";
     columns :=
       [ {| column_name := "departure_airport" |};
         {| column_name := "arrival_airport" |};
         {| column_name := "co2_emissions_kg_per_person" |} ];
     query := "
        select 
            departure_airport, 
            arrival_airport, 
            avg(estimated_co2_total_tonnes / seats) * 1000 as co2_emissions_kg_per_person
        from oag_flight_emissions_data_sample.public.estimated_emissions_schedules_sample
        where seats != 0 and estimated_co2_total_tonnes is not null
        group by departure_airport, arrival_airport
        " |}.

Definition flight_punctuality : View :=
  {| view_name := "flight_punctuality";
     columns :=
       [ {| column_name := "departure_iata_airport_code" |};
         {| column_name := "arrival_iata_airport_code" |};
         {| column_name := "punctual_pct" |} ];
     query := "
        select 
            departure_iata_airport_code, 
            arrival_iata_airport_code, 
            count(
                case when arrival_actual_ingate_timeliness IN ('OnTime', 'Early') THEN 1 END
            ) / COUNT(*) * 100 as punctual_pct
        from oag_flight_status_data_sample.public.flight_status_latest_sample
        where arrival_actual_ingate_timeliness is not null
        group by departure_iata_airport_code, arrival_iata_airport_code
        " |}.

Definition flights_from_home : View :=
  {| view_name := "flights_from_home";
     columns :=
       [ {| column_name := "departure_airport" |};
         {| column_name := "arrival_airport" |};
         {| column_name := "arrival_city" |};
         {| column_name := "co2_emissions_kg_per_person" |};
         {| column_name := "punctual_pct" |} ];
     query := "
        select 
            departure_airport, 
            arrival_airport, 
            get_city_for_airport(arrival_airport) arrival_city,  
            co2_emissions_kg_per_person, 
            punctual_pct,
        from flight_emissions
        join flight_punctuality 
            on departure_airport = departure_iata_airport_code 
            and arrival_airport = arrival_iata_airport_code
        where departure_airport = (
            select $1:airport 
            from @quickstart_common.public.quickstart_repo/branches/main/data/home.json 
                (FILE_FORMAT => bronze.json_format))
        " |}.

Definition weather_forecast : View :=
  {| view_name := "weather_forecast";
     columns :=
       [ {| column_name := "postal_code" |};
         {| column_name := "avg_temperature_air_f" |};
         {| column_name := "avg_relative_humidity_pct" |};
         {| column_name := "avg_cloud_cover_pct" |};
         {| column_name := "precipitation_probability_pct" |} ];
     query := "
        select 
            postal_code, 
            avg(avg_temperature_air_2m_f) avg_temperature_air_f, 
            avg(avg_humidity_relative_2m_pct) avg_relative_humidity_pct, 
            avg(avg_cloud_cover_tot_pct) avg_cloud_cover_pct, 
            avg(probability_of_precipitation_pct) precipitation_probability_pct
        from global_weather__climate_data_for_bi.standard_tile.forecast_day
        where country = 'US'
        group by postal_code
        " |}.

Definition major_us_cities : View :=
  {| view_name := "major_us_cities";
     columns :=
       [ {| column_name := "geo_id" |};
         {| column_name := "geo_name" |};
         {| column_name := "total_population" |} ];
     query := "
        select 
            geo.geo_id, 
            geo.geo_name, 
            max(ts.value) total_population
        from global_government.cybersyn.datacommons_timeseries ts
        join global_government.cybersyn.geography_index geo 
            on ts.geo_id = geo.geo_id
        join global_government.cybersyn.geography_relationships geo_rel 
            on geo_rel.related_geo_id = geo.geo_id
        where true
            and ts.variable_name = 'Total Population, census.gov'
            and date >= '2020-01-01'
            and geo.level = 'City'
            and geo_rel.geo_id = 'country/USA'
            and value > 100000
        group by geo.geo_id, geo.geo_name
        order by total_population desc
        " |}.

Definition zip_codes_in_city : View :=
  {| view_name := "zip_codes_in_city";
     columns :=
       [ {| column_name := "city_geo_id" |};
         {| column_name := "city_geo_name" |};
         {| column_name := "zip_geo_id" |};
         {| column_name := "zip_geo_name" |} ];
     query := "
        select 
            city.geo_id city_geo_id, 
            city.geo_name city_geo_name, 
            city.related_geo_id zip_geo_id, 
            city.related_geo_name zip_geo_name
        from us_addresses__poi.cybersyn.geography_relationships country
        join us_addresses__poi.cybersyn.geography_relationships city 
            on country.related_geo_id = city.geo_id
        where true
            and country.geo_id = 'country/USA'
            and city.level = 'City'
            and city.related_level = 'CensusZipCodeTabulationArea'
        order by city_geo_id
        " |}.

Definition weather_joined_with_major_cities : View :=
  {| view_name := "weather_joined_with_major_cities";
     columns :=
       [ {| column_name := "geo_id" |};
         {| column_name := "geo_name" |};
         {| column_name := "total_population" |};
         {| column_name := "avg_temperature_air_f" |};
         {| column_name := "avg_relative_humidity_pct" |};
         {| column_name := "avg_cloud_cover_pct" |};
         {| column_name := "precipitation_probability_pct" |} ];
     query := "
        select 
            city.geo_id, 
            city.geo_name, 
            city.total_population,
            avg(avg_temperature_air_f) avg_temperature_air_f,
            avg(avg_relative_humidity_pct) avg_relative_humidity_pct,
            avg(avg_cloud_cover_pct) avg_cloud_cover_pct,
            avg(precipitation_probability_pct) precipitation_probability_pct
        from major_us_cities city
        join zip_codes_in_city zip on city.geo_id = zip.city_geo_id
        join weather_forecast weather on zip.zip_geo_name = weather.postal_code
        group by city.geo_id, city.geo_name, city.total_population
        " |}.

Definition pipeline : list View :=
  [ flight_emissions;
    flight_punctuality;
    flights_from_home;
    weather_forecast;
    major_us_cities;
    zip_codes_in_city;
    weather_joined_with_major_cities ].

(** The [View] built by the expression statement that ends the file, after
    the loop over [pipeline]; the source binds it to no name. *)
Definition attractions : View :=
  {| view_name := "attractions";
     columns :=
       [ {| column_name := "geo_id" |};
         {| column_name := "geo_name" |};
         {| column_name := "aquarium_cnt" |};
         {| column_name := "zoo_cnt" |};
         {| column_name := "korean_restaurant_cnt" |} ];
     query := "
    select
        city.geo_id,
        city.geo_name,
        count(case when category_main = 'Aquarium' THEN 1 END) aquarium_cnt,
        count(case when category_main = 'Zoo' THEN 1 END) zoo_cnt,
        count(case when category_main = 'Korean Restaurant' THEN 1 END) korean_restaurant_cnt,
    from us_addresses__poi.cybersyn.point_of_interest_index poi
    join us_addresses__poi.cybersyn.point_of_interest_addresses_relationships poi_add 
        on poi_add.poi_id = poi.poi_id
    join us_addresses__poi.cybersyn.us_addresses address 
        on address.address_id = poi_add.address_id
    join major_us_cities city on city.geo_id = address.id_city
    where true
        and category_main in ('Aquarium', 'Zoo', 'Korean Restaurant')
        and id_country = 'country/USA'
    group by city.geo_id, city.geo_name
    " |}.

(** ** The warehouse and the client API

    Objects are stored under their fully qualified name: database, schema
    and object name; a function is further identified by the data types of
    its arguments. *)

Definition schema_ref : Type := string * string.
Definition view_key : Type := string * string * string.
Definition function_key : Type := string * string * (string * list string).

Record warehouse :=
  { functions : gmap function_key UserDefinedFunction;
    views : gmap view_key View }.

Definition empty_warehouse : warehouse := {| functions := ∅; views := ∅ |}.

Definition signature (f : UserDefinedFunction) : string * list string :=
  (udf_name f, map arg_datatype (arguments f)).

Definition function_key_of (target : schema_ref) (f : UserDefinedFunction)
  : function_key := (fst target, snd target, signature f).

Definition view_key_of (target : schema_ref) (v : View) : view_key :=
  (fst target, snd target, view_name v).

(** The two API calls the script makes. *)
Inductive request :=
| CreateFunction (target : schema_ref) (f : UserDefinedFunction) (mode : CreateMode)
| CreateView (target : schema_ref) (v : View) (mode : CreateMode).

Definition request_mode (r : request) : CreateMode :=
  match r with CreateFunction _ _ m | CreateView _ _ m => m end.

Definition request_target (r : request) : schema_ref :=
  match r with CreateFunction t _ _ | CreateView t _ _ => t end.

Inductive exn :=
| KeyError (key : string)
| APIError (status : Z) (reason : string).

(** What an accepted call stores. [error_if_exists] refuses an existing
    name, [if_not_exists] keeps the existing object, [or_replace] overwrites
    it. *)
Definition store (r : request) (w : warehouse) : exn + warehouse :=
  match r with
  | CreateFunction target f mode =>
      let k := function_key_of target f in
      match mode, functions w !! k with
      | error_if_exists, Some _ => inl (APIError 409 "Conflict")
      | if_not_exists, Some _ => inr w
      | _, _ => inr {| functions := <[k := f]> (functions w); views := views w |}
      end
  | CreateView target v mode =>
      let k := view_key_of target v in
      match mode, views w !! k with
      | error_if_exists, Some _ => inl (APIError 409 "Conflict")
      | if_not_exists, Some _ => inr w
      | _, _ => inr {| functions := functions w; views := <[k := v]> (views w) |}
      end
  end.

(** The state a run threads: the objects of the warehouse and the calls
    issued so far, oldest first. *)
Record world := { objects : warehouse; issued : list request }.

(** A computation may raise; the world it leaves behind is kept, nothing
    is rolled back. *)
Definition M (A : Type) : Type := world -> world * (exn + A).

Global Instance M_ret : MRet M := fun A a s => (s, inr a).

Definition raise {A} (e : exn) : M A := fun s => (s, inl e).

Global Instance M_bind : MBind M := fun A B k m s =>
  match m s with
  | (s', inl e) => (s', inl e)
  | (s', inr a) => k a s'
  end.

(** [for x in xs: body(x)] *)
Fixpoint for_ {A} (xs : list A) (body : A -> M unit) : M unit :=
  match xs with
  | [] => mret tt
  | x :: xs' => body x ;; for_ xs' body
  end.

Section Script.

(** What the run depends on and the source does not fix: the process
    environment, whether a session can be opened, and the platform's own
    reasons to refuse a call in a given state (bad SQL, a missing dataset,
    database or schema, a runtime fault). *)
Variable environ : gmap string string.
Variable session_fault : option exn.
Variable faults : request -> warehouse -> option exn.

(** One API call: it is recorded, then the platform refuses it or stores
    the object. *)
Definition call (r : request) : M unit :=
  fun s =>
    let s1 := {| objects := objects s; issued := issued s ++ [r] |} in
    match faults r (objects s) with
    | Some e => (s1, inl e)
    | None =>
        match store r (objects s) with
        | inl e => (s1, inl e)
        | inr w => ({| objects := w; issued := issued s ++ [r] |}, inr tt)
        end
    end.

(** [Session.builder.getOrCreate()] *)
Definition getOrCreate : M unit :=
  match session_fault with
  | Some e => raise e
  | None => mret tt
  end.

(** [os.environ[key]] *)
Definition os_environ (key : string) : M string :=
  match environ !! key with
  | Some v => mret v
  | None => raise (KeyError key)
  end.

Definition user_defined_functions_create
    (schema : schema_ref) (f : UserDefinedFunction) (mode : CreateMode) : M unit :=
  call (CreateFunction schema f mode).

Definition views_create (schema : schema_ref) (v : View) (mode : CreateMode)
  : M unit :=
  call (CreateView schema v mode).

(** [root.databases[f"quickstart_{environment}"].schemas["silver"]]:
    a handle, no call is made to obtain it. *)
Definition silver_schema (environment : string) : schema_ref :=
  ("quickstart_" +:+ environment, "silver").

(** The module's top-level statements, in order. The last one builds a
    tuple holding the view [attractions] and drops it. *)
Definition script : M unit :=
  getOrCreate ;;
  environment ← os_environ "environment" ;
  user_defined_functions_create
    (silver_schema environment) map_city_to_airport or_replace ;;
  for_ pipeline
    (fun view => views_create (silver_schema environment) view or_replace) ;;
  let _ := (attractions, tt) in
  mret tt.

Definition run (w : warehouse) : world * (exn + unit) :=
  script {| objects := w; issued := [] |}.

End Script.

(** ** The run, call by call *)

(** What a call in [or_replace] mode stores. *)
Definition put (r : request) (w : warehouse) : warehouse :=
  match r with
  | CreateFunction target f _ =>
      {| functions := <[function_key_of target f := f]> (functions w);
         views := views w |}
  | CreateView target v _ =>
      {| functions := functions w;
         views := <[view_key_of target v := v]> (views w) |}
  end.

(** The warehouse after the calls [rs] were all accepted. *)
Definition after (rs : list request) (w : warehouse) : warehouse :=
  foldl (fun w r => put r w) w rs.

(** The calls of a complete run, in order. *)
Definition requests (environment : string) : list request :=
  CreateFunction (silver_schema environment) map_city_to_airport or_replace
  :: map (fun view => CreateView (silver_schema environment) view or_replace)
       pipeline.

(** The name of the object a call creates. *)
Definition created_name (r : request) : string :=
  match r with
  | CreateFunction _ f _ => udf_name f
  | CreateView _ v _ => view_name v
  end.

(** The platform accepts the first [k] calls of [rs], each in the state the
    calls before it left. *)
Definition accepted_upto (faults : request -> warehouse -> option exn)
    (k : nat) (rs : list request) (w : warehouse) : Prop :=
  forall j r, j < k -> rs !! j = Some r -> faults r (after (take j rs) w) = None.

(** The state of the warehouse after a run on a platform that refuses
    nothing and with a session at hand: the script as a function on states. *)
Definition deploy (environ : gmap string string) (w : warehouse) : warehouse :=
  objects (fst (run environ None (fun _ _ => None) w)).

(** ** Names in the SQL text

    A view refers to the objects its query names. The query is read as a
    sequence of identifiers: maximal runs of letters, digits, [_], [$] and
    the qualifying dot, outside quoted literals, compared without regard to
    case as the warehouse does for unquoted names. *)

Definition is_ident_char (c : ascii) : bool :=
  let n := nat_of_ascii c in
  (Nat.leb 48 n && Nat.leb n 57) || (Nat.leb 65 n && Nat.leb n 90)
  || (Nat.leb 97 n && Nat.leb n 122) || Nat.eqb n 95 || Nat.eqb n 36 || Nat.eqb n 46.

Definition lower_char (c : ascii) : ascii :=
  let n := nat_of_ascii c in
  if Nat.leb 65 n && Nat.leb n 90 then ascii_of_nat (n + 32) else c.

Fixpoint lower (s : string) : string :=
  match s with
  | EmptyString => EmptyString
  | String c s' => String (lower_char c) (lower s')
  end.

Definition is_quote (c : ascii) : bool := Nat.eqb (nat_of_ascii c) 39.

(** The words of a text; the head of the result is the word in progress.
    [quoted] tells whether the text starts inside a quoted literal. *)
Fixpoint words (quoted : bool) (s : string) : list string :=
  match s with
  | EmptyString => [ EmptyString ]
  | String c s' =>
      if is_quote c then EmptyString :: words (negb quoted) s'
      else if quoted then words true s'
      else if is_ident_char c then
        match words false s' with
        | w :: ws => String c w :: ws
        | [] => [ String c EmptyString ]
        end
      else EmptyString :: words false s'
  end.

Definition identifiers (q : string) : list string :=
  map lower (filter (fun w => w <> EmptyString) (words false q)).

(** The query of [v] names [name]. *)
Definition mentions (name : string) (v : View) : bool :=
  bool_decide (lower name ∈ identifiers (query v)).

(** The names of the objects the file declares for the target schema. *)
Definition declared_names : list string :=
  udf_name map_city_to_airport :: map view_name (pipeline ++ [attractions]).

(** The declared objects a view refers to. *)
Definition dependencies (v : View) : list string :=
  filter (fun n => mentions n v = true) declared_names.

(** The third-party datasets the views read. Each is a database of the
    marketplace; the file names five databases, one for each dataset. *)
Inductive dataset :=
| FlightEmissions
| FlightPunctuality
| WeatherForecasts
| ReferenceData
| PointsOfInterest.

Definition datasets : list dataset :=
  [ FlightEmissions; FlightPunctuality; WeatherForecasts; ReferenceData;
    PointsOfInterest ].



(** The views among the calls [rs]. *)
Definition created_views (rs : list request) : list View :=
  omap (fun r => match r with CreateView _ v _ => Some v | _ => None end) rs.

(** The functions among the calls [rs]. *)
Definition created_functions (rs : list request) : list UserDefinedFunction :=
  omap (fun r => match r with CreateFunction _ f _ => Some f | _ => None end) rs.

(** A function is scalar when it returns a value, not a table. *)
Definition is_scalar (f : UserDefinedFunction) : bool :=
  match return_type f with ReturnDataType _ => true | ReturnTable _ => false end.

(** The key under which a call stores its object. *)
Definition request_key (r : request) : function_key + view_key :=
  match r with
  | CreateFunction target f _ => inl (function_key_of target f)
  | CreateView target v _ => inr (view_key_of target v)
  end.

(** The object of call [r] is in the warehouse [w]. *)
Definition stored (r : request) (w : warehouse) : Prop :=
  match r with
  | CreateFunction target f _ =>
      functions w !! function_key_of target f = Some f
  | CreateView target v _ => views w !! view_key_of target v = Some v
  end.


(** ** The handler of [get_city_for_airport]

    The function [main] of the body text, on the values it can meet: what
    [json.loads] returns for the airport list, and the first column of the
    batch, whose rows are strings or [None] for SQL NULL. *)

Module Handler.

(** A Python string: its code points. *)
Definition str : Type := list N.

(** The Python string of a text of ASCII characters. *)
Definition text (s : string) : str := map N_of_ascii (list_ascii_of_string s).

(** What the interpreter provides and the repository does not hold: the
    floats [json.loads] makes of numbers with a fraction or an exponent,
    whether two floats, or a float and an integer, are one key of a dict,
    and the case mapping of [str.upper]. *)
Class Interpreter :=
  { float : Type;
    float_eqb : float -> float -> bool;
    float_eq_int : float -> Z -> bool;
    upper : str -> str }.

Section Python.

Context `{Interpreter}.

(** Python values. A dict of [json.loads] is given by its items in
    insertion order; its keys are strings. *)
#[local] Set Warnings "-register-all".
Inductive pyval :=
| PNone
| PBool (b : bool)
| PInt (n : Z)
| PFloat (x : float)
| PStr (s : str)
| PList (items : list pyval)
| PDict (items : list (str * pyval)).

Inductive error := TypeError | IndexError | LookupKeyError | AttributeError.

(** [x[i]] for a literal index [i]. A dict of string keys has no key [i]. *)
Definition getitem (x : pyval) (i : nat) : error + pyval :=
  match x with
  | PList items =>
      match items !! i with
      | Some v => inr v
      | None => inl IndexError
      end
  | PStr s =>
      match s !! i with
      | Some c => inr (PStr [ c ])
      | None => inl IndexError
      end
  | PDict _ => inl LookupKeyError
  | PNone | PBool _ | PInt _ | PFloat _ => inl TypeError
  end.

(** The values [for airport in x] visits. *)
Definition iter (x : pyval) : error + list pyval :=
  match x with
  | PList items => inr items
  | PStr s => inr (map (fun c => PStr [ c ]) s)
  | PDict items => inr (map (fun kv => PStr (fst kv)) items)
  | PNone | PBool _ | PInt _ | PFloat _ => inl TypeError
  end.

Definition hashable (k : pyval) : bool :=
  match k with
  | PList _ | PDict _ => false
  | PNone | PBool _ | PInt _ | PFloat _ | PStr _ => true
  end.

(** Whether [a] and [b] are one key of a dict, for hashable values: [True]
    and [False] are the numbers 1 and 0, a string equals strings only. *)
Definition key_eqb (a b : pyval) : bool :=
  match a, b with
  | PNone, PNone => true
  | PStr s, PStr t => bool_decide (s = t)
  | PBool x, PBool y => Bool.eqb x y
  | PBool x, PInt n | PInt n, PBool x => Z.eqb (if x then 1 else 0) n
  | PInt n, PInt m => Z.eqb n m
  | PFloat x, PFloat y => float_eqb x y
  | PFloat x, PInt n | PInt n, PFloat x => float_eq_int x n
  | PFloat x, PBool b | PBool b, PFloat x => float_eq_int x (if b then 1 else 0)
  | _, _ => false
  end.

(** A Python dict: its items in insertion order. *)
Definition dict : Type := list (pyval * pyval).

(** [d[k] = v]: an existing key keeps its place and its key object. *)
Fixpoint setitem (d : dict) (k v : pyval) : dict :=
  match d with
  | [] => [ (k, v) ]
  | (k', v') :: d' =>
      if key_eqb k' k then (k', v) :: d' else (k', v') :: setitem d' k v
  end.

(** [d.get(k)] *)
Fixpoint get (d : dict) (k : pyval) : pyval :=
  match d with
  | [] => PNone
  | (k', v') :: d' => if key_eqb k' k then v' else get d' k
  end.

(** [{airport[3]: airport[1] for airport in airport_list}], started from
    the dict built so far. The key is evaluated before the value, and
    hashed when the item is stored. *)
Fixpoint comprehension (airport_list : list pyval) (airports : dict)
  : error + dict :=
  match airport_list with
  | [] => inr airports
  | airport :: rest =>
      match getitem airport 3 with
      | inl e => inl e
      | inr k =>
          match getitem airport 1 with
          | inl e => inl e
          | inr v =>
              if hashable k then comprehension rest (setitem airports k v)
              else inl TypeError
          end
      end
  end.

(** [lambda iata: airports.get(iata.upper())]: only a string has
    [upper]. *)
Definition city_of (airports : dict) (iata : pyval) : error + pyval :=
  match iata with
  | PStr s => inr (get airports (PStr (upper s)))
  | PNone | PBool _ | PInt _ | PFloat _ | PList _ | PDict _ =>
      inl AttributeError
  end.

(** [series.apply(f)]: [f] on each row in turn. *)
Fixpoint apply (f : pyval -> error + pyval) (series : list pyval)
  : error + list pyval :=
  match series with
  | [] => inr []
  | x :: rest =>
      match f x with
      | inl e => inl e
      | inr y =>
          match apply f rest with
          | inl e => inl e
          | inr ys => inr (y :: ys)
          end
      end
  end.

(** [main(df)], given the value of [json.loads(...)] and the column
    [df[0]]. *)
Definition main (airport_list : pyval) (df0 : list pyval)
  : error + list pyval :=
  match iter airport_list with
  | inl e => inl e
  | inr entries =>
      match comprehension entries [] with
      | inl e => inl e
      | inr airports => apply (city_of airports) df0
      end
  end.

(** An entry [main] can store: it has elements 1 and 3, and element 3 is
    hashable. *)
Definition storable (airport : pyval) : Prop :=
  exists k v,
    getitem airport 3 = inr k /\ getitem airport 1 = inr v
    /\ hashable k = true.

Definition is_str (x : pyval) : Prop := exists s, x = PStr s.

(** An entry of the airport list that an input can match: its element 3 is
    a string that upper-casing leaves as it is. *)
Definition matchable (airport : pyval) : bool :=
  match getitem airport 3 with
  | inr (PStr k) => bool_decide (upper k = k)
  | _ => false
  end.

(** A row with its string in upper case. *)
Definition upper_row (x : pyval) : pyval :=
  match x with
  | PStr s => PStr (upper s)
  | _ => x
  end.

End Python.

(** An interpreter for the examples, whose strings are ASCII: on them
    [str.upper] maps the letters a to z and leaves the rest. Its floats
    are rationals. *)
Definition ascii_upper (s : str) : str :=
  map (fun c => if (N.leb 97 c && N.leb c 122)%bool then (c - 32)%N else c) s.

Definition example_interpreter : Interpreter :=
  {| float := Q;
     float_eqb := Qeq_bool;
     float_eq_int := fun x n => Qeq_bool x (inject_Z n);
     upper := ascii_upper |}.

End Handler.

(** ** The query of [flight_emissions]

    The query text, read clause by clause in SQL's order of evaluation:
    [from], [where], [group by], then the select list over each group. A
    column value is [None] for NULL; a condition has three truth values, and
    [where] keeps the rows on which it is true. *)

Module Emissions.

(** A row of [estimated_emissions_schedules_sample], with the columns the
    query reads. *)
Record schedule :=
  { departure_airport : option string;
    arrival_airport : option string;
    estimated_co2_total_tonnes : option Q;
    seats : option Q }.

(** A row of the view. *)
Record emission :=
  { from_airport : option string;
    to_airport : option string;
    co2_emissions_kg_per_person : option Q }.

Inductive error := DivisionByZero.

(** [a != b] *)
Definition sql_neq (a b : option Q) : option bool :=
  match a, b with
  | Some x, Some y => Some (negb (Qeq_bool x y))
  | _, _ => None
  end.

(** [a is not null] *)
Definition sql_is_not_null {A} (a : option A) : option bool :=
  match a with
  | Some _ => Some true
  | None => Some false
  end.

(** [p and q] *)
Definition sql_and (p q : option bool) : option bool :=
  match p, q with
  | Some false, _ | _, Some false => Some false
  | Some true, Some true => Some true
  | _, _ => None
  end.

(** [a / b]: NULL when an operand is NULL, an error when the divisor
    is zero. *)
Definition sql_div (a b : option Q) : error + option Q :=
  match a, b with
  | Some x, Some y =>
      if Qeq_bool y 0 then inl DivisionByZero else inr (Some (x / y)%Q)
  | _, _ => inr None
  end.

(** [a * b] *)
Definition sql_mul (a b : option Q) : option Q :=
  match a, b with
  | Some x, Some y => Some (x * y)%Q
  | _, _ => None
  end.

(** [avg(...)]: the mean of the values that are not NULL, NULL when
    there is none. *)
Definition sql_avg (xs : list (option Q)) : option Q :=
  match omap id xs with
  | [] => None
  | y :: ys =>
      Some (fold_right Qplus 0%Q (y :: ys) / inject_Z (Z.of_nat (length (y :: ys))))%Q
  end.

(** [where seats != 0 and estimated_co2_total_tonnes is not null] *)
Definition where_clause (r : schedule) : option bool :=
  sql_and (sql_neq (seats r) (Some 0%Q))
          (sql_is_not_null (estimated_co2_total_tonnes r)).

Definition selected (rows : list schedule) : list schedule :=
  filter (fun r => where_clause r = Some true) rows.

(** [estimated_co2_total_tonnes / seats] *)
Definition per_seat (r : schedule) : error + option Q :=
  sql_div (estimated_co2_total_tonnes r) (seats r).

(** The expression on each row of a list, stopping at the first error. *)
Fixpoint each (f : schedule -> error + option Q) (rows : list schedule)
  : error + list (option Q) :=
  match rows with
  | [] => inr []
  | r :: rest =>
      match f r with
      | inl e => inl e
      | inr x =>
          match each f rest with
          | inl e => inl e
          | inr xs => inr (x :: xs)
          end
      end
  end.

Definition group_key (r : schedule) : option string * option string :=
  (departure_airport r, arrival_airport r).

(** [group by departure_airport, arrival_airport]: the keys in order of
    first appearance, each with its rows. *)
Definition groups (rows : list schedule)
  : list ((option string * option string) * list schedule) :=
  map (fun k => (k, filter (fun r => group_key r = k) rows))
      (remove_dups (map group_key rows)).

(** The select list on one group. *)
Definition aggregate (g : (option string * option string) * list schedule)
  : error + emission :=
  match each per_seat (snd g) with
  | inl e => inl e
  | inr quotients =>
      inr {| from_airport := fst (fst g);
             to_airport := snd (fst g);
             co2_emissions_kg_per_person :=
               sql_mul (sql_avg quotients) (Some 1000%Q) |}
  end.

Fixpoint collect (gs : list ((option string * option string) * list schedule))
  : error + list emission :=
  match gs with
  | [] => inr []
  | g :: rest =>
      match aggregate g with
      | inl e => inl e
      | inr row =>
          match collect rest with
          | inl e => inl e
          | inr out => inr (row :: out)
          end
      end
  end.

(** The rows of the view over a table. *)
Definition eval (table : list schedule) : error + list emission :=
  collect (groups (selected table)).

(** The rows on which the query evaluates the division. *)
Definition divided (table : list schedule) : list schedule :=
  concat (map snd (groups (selected table))).

End Emissions.

(** The object found in [w] under the name that call [r] creates. *)
Definition object_at (r : request) (w : warehouse)
  : option (UserDefinedFunction + View) :=
  match r with
  | CreateFunction target f _ => inl <$> functions w !! function_key_of target f
  | CreateView target v _ => inr <$> views w !! view_key_of target v
  end.

(** ** The query of [flight_punctuality]

    Read like the query of [flight_emissions]; the quotient of the two
    counts is the exact rational. *)

Module Punctuality.

(** A row of [flight_status_latest_sample], with the columns the query
    reads. *)
Record flight_status :=
  { departure_iata_airport_code : option string;
    arrival_iata_airport_code : option string;
    arrival_actual_ingate_timeliness : option string }.

(** A row of the view. *)
Record punctuality :=
  { from_code : option string;
    to_code : option string;
    punctual_pct : option Q }.

(** [x IN (v1, ..., vn)], the listed values being strings *)
Definition sql_in (x : option string) (vs : list string) : option bool :=
  match x with
  | Some s => Some (existsb (String.eqb s) vs)
  | None => None
  end.

(** [case when c then 1 end]: NULL unless the condition is true. *)
Definition case_when_then_1 (c : option bool) : option Z :=
  match c with
  | Some true => Some 1%Z
  | _ => None
  end.

(** [count(e)]: the number of rows on which [e] is not NULL. *)
Definition sql_count {A} (xs : list (option A)) : Z :=
  Z.of_nat (length (omap id xs)).

(** The count of all rows. *)
Definition sql_count_star {A} (rows : list A) : Z := Z.of_nat (length rows).

(** [where arrival_actual_ingate_timeliness is not null] *)
Definition where_clause (r : flight_status) : option bool :=
  Emissions.sql_is_not_null (arrival_actual_ingate_timeliness r).

Definition selected (rows : list flight_status) : list flight_status :=
  filter (fun r => where_clause r = Some true) rows.

(** [case when arrival_actual_ingate_timeliness IN ('OnTime', 'Early')
    THEN 1 END] *)
Definition punctual (r : flight_status) : option Z :=
  case_when_then_1
    (sql_in (arrival_actual_ingate_timeliness r) [ "OnTime"; "Early" ]).

Definition group_key (r : flight_status) : option string * option string :=
  (departure_iata_airport_code r, arrival_iata_airport_code r).

(** [group by departure_iata_airport_code, arrival_iata_airport_code] *)
Definition groups (rows : list flight_status)
  : list ((option string * option string) * list flight_status) :=
  map (fun k => (k, filter (fun r => group_key r = k) rows))
      (remove_dups (map group_key rows)).

(** The select list on one group: the count of punctual rows, divided
    by the count of all rows, times 100. *)
Definition aggregate (g : (option string * option string) * list flight_status)
  : Emissions.error + punctuality :=
  match Emissions.sql_div
          (Some (inject_Z (sql_count (map punctual (snd g)))))
          (Some (inject_Z (sql_count_star (snd g)))) with
  | inl e => inl e
  | inr quotient =>
      inr {| from_code := fst (fst g);
             to_code := snd (fst g);
             punctual_pct := Emissions.sql_mul quotient (Some 100%Q) |}
  end.

Fixpoint collect (gs : list ((option string * option string) * list flight_status))
  : Emissions.error + list punctuality :=
  match gs with
  | [] => inr []
  | g :: rest =>
      match aggregate g with
      | inl e => inl e
      | inr row =>
          match collect rest with
          | inl e => inl e
          | inr out => inr (row :: out)
          end
      end
  end.

(** The rows of the view over a table. *)
Definition eval (table : list flight_status) : Emissions.error + list punctuality :=
  collect (groups (selected table)).

End Punctuality.

(** ** The query of [weather_forecast] *)

Module Weather.

(** A row of [forecast_day], with the columns the query reads. *)
Record forecast_day :=
  { postal_code : option string;
    country : option string;
    avg_temperature_air_2m_f : option Q;
    avg_humidity_relative_2m_pct : option Q;
    avg_cloud_cover_tot_pct : option Q;
    probability_of_precipitation_pct : option Q }.

(** A row of the view. *)
Record forecast :=
  { zip : option string;
    avg_temperature_air_f : option Q;
    avg_relative_humidity_pct : option Q;
    avg_cloud_cover_pct : option Q;
    precipitation_probability_pct : option Q }.

(** [a = b] on strings *)
Definition sql_eq (a b : option string) : option bool :=
  match a, b with
  | Some x, Some y => Some (String.eqb x y)
  | _, _ => None
  end.

(** [where country = 'US'] *)
Definition where_clause (r : forecast_day) : option bool :=
  sql_eq (country r) (Some "US").

Definition selected (rows : list forecast_day) : list forecast_day :=
  filter (fun r => where_clause r = Some true) rows.

(** [group by postal_code] *)
Definition groups (rows : list forecast_day)
  : list (option string * list forecast_day) :=
  map (fun k => (k, filter (fun r => postal_code r = k) rows))
      (remove_dups (map postal_code rows)).

(** The select list on one group. *)
Definition aggregate (g : option string * list forecast_day) : forecast :=
  {| zip := fst g;
     avg_temperature_air_f :=
       Emissions.sql_avg (map avg_temperature_air_2m_f (snd g));
     avg_relative_humidity_pct :=
       Emissions.sql_avg (map avg_humidity_relative_2m_pct (snd g));
     avg_cloud_cover_pct :=
       Emissions.sql_avg (map avg_cloud_cover_tot_pct (snd g));
     precipitation_probability_pct :=
       Emissions.sql_avg (map probability_of_precipitation_pct (snd g)) |}.

(** The rows of the view over a table. *)
Definition eval (table : list forecast_day) : list forecast :=
  map aggregate (groups (selected table)).

End Weather.

Lemma store_or_replace r w :
  request_mode r = or_replace -> store r w = inr (put r w).
Proof.
  destruct r as [t f m|t v m]; simpl; intros ->; simpl.
  - by destruct (functions w !! function_key_of t f).
  - by destruct (views w !! view_key_of t v).
Qed.

Lemma requests_or_replace env :
  Forall (fun r => request_mode r = or_replace) (requests env).
Proof. unfold requests, pipeline. repeat constructor. Qed.

Lemma requests_target env :
  Forall (fun r => request_target r = silver_schema env) (requests env).
Proof. unfold requests, pipeline. repeat constructor. Qed.

Lemma after_app rs1 rs2 w : after (rs1 ++ rs2) w = after rs2 (after rs1 w).
Proof. unfold after. apply foldl_app. Qed.

Lemma for_map {A} (g : A -> request) faults (xs : list A) s :
  for_ xs (fun x => call faults (g x)) s = for_ (map g xs) (call faults) s.
Proof.
  revert s. induction xs as [|x xs IH]; intros s; [done|].
  simpl. unfold mbind, M_bind. destruct (call faults (g x) s) as [s' [e|[]]]; [done|].
  apply IH.
Qed.

Section Run.

Variable environ : gmap string string.
Variable session_fault : option exn.
Variable faults : request -> warehouse -> option exn.

(** The loop over a list of [or_replace] calls: it ends normally when the
    platform accepts every call, and stops at the first call the platform
    refuses, with that call's exception and the objects of the calls
    before it. *)
Lemma for_call_spec rs :
  Forall (fun r => request_mode r = or_replace) rs ->
  forall s,
    match for_ rs (call faults) s with
    | (s', inr _) =>
        accepted_upto faults (length rs) rs (objects s)
        /\ objects s' = after rs (objects s)
        /\ issued s' = issued s ++ rs
    | (s', inl e) =>
        exists k r,
          rs !! k = Some r
          /\ accepted_upto faults k rs (objects s)
          /\ faults r (after (take k rs) (objects s)) = Some e
          /\ objects s' = after (take k rs) (objects s)
          /\ issued s' = issued s ++ take (S k) rs
    end.
Proof.
  induction 1 as [|r rs Hr Hrs IH]; intros s.
  - simpl. split_and!; [intros j r Hj; lia|done|by rewrite app_nil_r].
  - simpl. unfold mbind, M_bind, call at 1.
    destruct (faults r (objects s)) as [e|] eqn:Hf.
    + exists 0, r. split_and!; [done|intros j r' Hj; lia|done|done|done].
    + rewrite (store_or_replace r _ Hr).
      specialize (IH {| objects := put r (objects s); issued := issued s ++ [r] |}).
      destruct (for_ rs (call faults) _) as [s' [e|u]]; simpl in IH.
      * destruct IH as (k & r' & Hk & Hacc & Hfk & Hobj & Hiss).
        exists (S k), r'. split_and!; [done| |done|done|].
        -- intros [|j] r'' Hj Hl; simpl in *; [by simplify_eq|].
           apply (Hacc j r''); [lia|done].
        -- rewrite Hiss, <- app_assoc. done.
      * destruct IH as (Hacc & Hobj & Hiss). split_and!; [|done|].
        -- intros [|j] r'' Hj Hl; simpl in *; [by simplify_eq|].
           apply (Hacc j r''); [lia|done].
        -- rewrite Hiss, <- app_assoc. done.
Qed.

Lemma run_session_fault e w :
  session_fault = Some e ->
  run environ session_fault faults w = ({| objects := w; issued := [] |}, inl e).
Proof. intros H. unfold run, script, getOrCreate. by rewrite H. Qed.

Lemma run_unset w :
  session_fault = None -> environ !! "environment" = None ->
  run environ session_fault faults w
  = ({| objects := w; issued := [] |}, inl (KeyError "environment")).
Proof.
  intros H1 H2. unfold run, script, getOrCreate, os_environ.
  rewrite H1. unfold mbind, M_bind, mret, M_ret. simpl. by rewrite H2.
Qed.

Lemma run_set env w :
  session_fault = None -> environ !! "environment" = Some env ->
  run environ session_fault faults w
  = for_ (requests env) (call faults) {| objects := w; issued := [] |}.
Proof.
  intros H1 H2. unfold run, script, getOrCreate, os_environ.
  rewrite H1, H2. unfold requests. 
  change (for_ (?r :: ?rs) ?b) with (b r ;; for_ rs b).
  unfold user_defined_functions_create, views_create.
  unfold mbind, M_bind, mret, M_ret. cbv beta iota.
  destruct (call faults _ _) as [s1 [e|[]]]; [done|].
  rewrite (for_map (fun view => CreateView (silver_schema env) view or_replace)).
  by destruct (for_ _ _ s1) as [s2 [e|[]]].
Qed.

End Run.

(** ** The shape of a run *)

Section Shape.

Variable environ : gmap string string.
Variable session_fault : option exn.
Variable faults : request -> warehouse -> option exn.

(** Every way a run can end. *)
Lemma run_spec w :
  match run environ session_fault faults w with
  | (s', inr _) =>
      session_fault = None
      /\ exists env,
          environ !! "environment" = Some env
          /\ accepted_upto faults (length (requests env)) (requests env) w
          /\ objects s' = after (requests env) w
          /\ issued s' = requests env
  | (s', inl e) =>
      (session_fault = Some e /\ objects s' = w /\ issued s' = [])
      \/ (session_fault = None /\ environ !! "environment" = None
          /\ e = KeyError "environment" /\ objects s' = w /\ issued s' = [])
      \/ (session_fault = None
          /\ exists env k r,
              environ !! "environment" = Some env
              /\ requests env !! k = Some r
              /\ accepted_upto faults k (requests env) w
              /\ faults r (after (take k (requests env)) w) = Some e
              /\ objects s' = after (take k (requests env)) w
              /\ issued s' = take (S k) (requests env))
  end.
Proof.
  destruct session_fault as [e0|].
  { rewrite (run_session_fault _ _ _ e0 w eq_refl). by left. }
  destruct (environ !! "environment") as [env|] eqn:He.
  - rewrite (run_set _ _ _ env w eq_refl He).
    pose proof (for_call_spec faults (requests env) (requests_or_replace env)
                  {| objects := w; issued := [] |}) as H.
    destruct (for_ _ _ _) as [s' [e|u]]; simpl in H.
    + right; right. split; [done|].
      destruct H as (k & r & ? & ? & ? & ? & ?). by exists env, k, r.
    + split; [done|]. destruct H as (? & ? & ?). by exists env.
  - rewrite (run_unset _ _ _ w eq_refl He). right; left. done.
Qed.

(** The calls issued are a prefix of the calls of a complete run, and the
    objects are those of the calls that were accepted. *)
Lemma run_shape w :
  let s' := fst (run environ session_fault faults w) in
  (issued s' = [] /\ objects s' = w)
  \/ exists env n m,
      environ !! "environment" = Some env
      /\ m <= n
      /\ issued s' = take n (requests env)
      /\ objects s' = after (take m (requests env)) w.
Proof.
  pose proof (run_spec w) as H.
  destruct (run environ session_fault faults w) as [s' [e|u]]; simpl.
  - destruct H as [(_ & ? & ?)|[(_ & _ & _ & ? & ?)|(_ & env & k & r & ? & ? & _ & _ & ? & ?)]];
      [by left|by left|].
    right. exists env, (S k), k. split_and!; [done|lia|done|done].
  - destruct H as (_ & env & ? & _ & ? & ?).
    right. exists env, (length (requests env)), (length (requests env)).
    rewrite firstn_all. done.
Qed.

Lemma issued_Forall (P : request -> Prop) w :
  (forall env, environ !! "environment" = Some env -> Forall P (requests env)) ->
  Forall P (issued (fst (run environ session_fault faults w))).
Proof.
  intros HP. destruct (run_shape w) as [[-> _]|(env & n & m & He & _ & -> & _)].
  - constructor.
  - apply Forall_take. by apply HP.
Qed.

End Shape.

(** ** What the calls leave in the warehouse *)

Lemma stored_put r w : stored r (put r w).
Proof. destruct r; simpl; apply lookup_insert_eq. Qed.

Lemma stored_put_ne r x w :
  request_key r <> request_key x -> stored r w -> stored r (put x w).
Proof.
  destruct r as [t f m|t v m], x as [t' f' m'|t' v' m']; simpl; intros Hne H;
    try done; rewrite lookup_insert_ne; congruence.
Qed.

Lemma put_stored r w : stored r w -> put r w = w.
Proof.
  destruct r as [t f m|t v m], w as [fs vs]; simpl; intros H;
    f_equal; by apply insert_id.
Qed.

Lemma after_snoc rs r w : after (rs ++ [r]) w = put r (after rs w).
Proof. by rewrite after_app. Qed.

(** With distinct keys, every call's object is there once all are made. *)
Lemma stored_after rs w :
  NoDup (request_key <$> rs) ->
  Forall (fun r => stored r (after rs w)) rs.
Proof.
  induction rs as [|x rs IH] using rev_ind; intros Hnd; [constructor|].
  rewrite fmap_app in Hnd. apply NoDup_app in Hnd as (Hnd & Hfresh & _).
  rewrite after_snoc. apply Forall_app. split.
  - apply Forall_forall. intros r Hr. apply stored_put_ne.
    + intros Heq. apply (Hfresh (request_key r)).
      * by apply list_elem_of_fmap_2.
      * rewrite Heq. simpl. apply list_elem_of_here.
    + revert r Hr. apply Forall_forall. by apply IH.
  - constructor; [apply stored_put|constructor].
Qed.

(** Replaying calls whose objects are all there changes nothing. *)
Lemma after_stored rs w :
  Forall (fun r => stored r w) rs -> after rs w = w.
Proof.
  induction 1 as [|r rs Hr Hrs IH]; [done|].
  unfold after in *. simpl. by rewrite (put_stored r w Hr).
Qed.

Lemma request_key_name r1 r2 :
  request_key r1 = request_key r2 -> created_name r1 = created_name r2.
Proof.
  destruct r1 as [t f m|t v m], r2 as [t' f' m'|t' v' m']; simpl; try done.
  - unfold function_key_of, signature. by intros [= _ _ ? _].
  - unfold view_key_of. by intros [= _ _ ?].
Qed.

Lemma NoDup_request_key rs :
  NoDup (created_name <$> rs) -> NoDup (request_key <$> rs).
Proof.
  induction rs as [|r rs IH]; [constructor|].
  rewrite !fmap_cons, !NoDup_cons. intros [Hr Hnd]. split; [|by apply IH].
  intros Hin. apply Hr.
  apply list_elem_of_fmap in Hin as (r' & Heq & Hin).
  apply list_elem_of_fmap. exists r'. split; [|done].
  by apply request_key_name.
Qed.

Lemma created_names env :
  created_name <$> requests env
  = [ "get_city_for_airport"; "flight_emissions"; "flight_punctuality";
      "flights_from_home"; "weather_forecast"; "major_us_cities";
      "zip_codes_in_city"; "weather_joined_with_major_cities" ].
Proof. reflexivity. Qed.

Lemma NoDup_requests env : NoDup (request_key <$> requests env).
Proof.
  apply NoDup_request_key. rewrite created_names.
  apply (bool_decide_unpack _). by vm_compute.
Qed.

Lemma NoDup_take_requests env k :
  NoDup (request_key <$> take k (requests env)).
Proof.
  rewrite fmap_take.
  apply (sublist_NoDup _ _ (NoDup_requests env)), sublist_take.
Qed.


Lemma created_views_requests env : created_views (requests env) = pipeline.
Proof. reflexivity. Qed.

Lemma created_functions_requests env :
  created_functions (requests env) = [ map_city_to_airport ].
Proof. reflexivity. Qed.

Lemma created_views_take k rs v :
  v ∈ created_views (take k rs) -> v ∈ created_views rs.
Proof.
  unfold created_views. rewrite !list_elem_of_omap.
  intros (r & Hr & Hv). exists r. split; [|done].
  apply elem_of_take in Hr as (i & Hi & _). by eapply list_elem_of_lookup_2.
Qed.

Lemma created_functions_take k rs f :
  f ∈ created_functions (take k rs) -> f ∈ created_functions rs.
Proof.
  unfold created_functions. rewrite !list_elem_of_omap.
  intros (r & Hr & Hf). exists r. split; [|done].
  apply elem_of_take in Hr as (i & Hi & _). by eapply list_elem_of_lookup_2.
Qed.

(** Calls that create no view named [n] leave the views of that name
    alone, in every schema. *)
Lemma after_view_frame rs w db sch n :
  n ∉ view_name <$> created_views rs ->
  views (after rs w) !! (db, sch, n) = views w !! (db, sch, n).
Proof.
  revert w. induction rs as [|r rs IH]; intros w Hn; [done|].
  unfold after in *. simpl. destruct r as [t f m|t v m]; simpl in *.
  - by rewrite IH.
  - rewrite IH.
    + simpl. apply lookup_insert_ne. unfold view_key_of. intros [= _ _ <-].
      apply Hn. apply list_elem_of_here.
    + intros Hin. apply Hn. by apply list_elem_of_further.
Qed.

Lemma after_function_frame rs w db sch n sig :
  n ∉ udf_name <$> created_functions rs ->
  functions (after rs w) !! (db, sch, (n, sig)) = functions w !! (db, sch, (n, sig)).
Proof.
  revert w. induction rs as [|r rs IH]; intros w Hn; [done|].
  unfold after in *. simpl. destruct r as [t f m|t v m]; simpl in *.
  - rewrite IH.
    + simpl. apply lookup_insert_ne. unfold function_key_of, signature.
      intros [= _ _ <- _]. apply Hn. apply list_elem_of_here.
    + intros Hin. apply Hn. by apply list_elem_of_further.
  - by rewrite IH.
Qed.

(** Once the calls of a complete run are made, making any first few of them
    again changes nothing. *)
Lemma after_take_after env k w :
  after (take k (requests env)) (after (requests env) w) = after (requests env) w.
Proof.
  apply after_stored, Forall_take, stored_after, NoDup_requests.
Qed.

Lemma deploy_eq environ w :
  deploy environ w
  = match environ !! "environment" with
    | Some env => after (requests env) w
    | None => w
    end.
Proof.
  unfold deploy.
  pose proof (run_spec environ None (fun _ _ => None) w) as H.
  destruct (run environ None (fun _ _ => None) w) as [s' [e|u]]; simpl.
  - destruct H as [(? & _)|[(_ & He & _ & Ho & _)|(_ & env & k & r & _ & _ & _ & ? & _)]];
      [done| |done].
    by rewrite He.
  - destruct H as (_ & env & He & _ & Ho & _). by rewrite He.
Qed.

(** The first call the platform refuses is determined by the platform. *)
Lemma first_refusal_unique faults rs w k k' r r' e e' :
  rs !! k = Some r -> accepted_upto faults k rs w ->
  faults r (after (take k rs) w) = Some e ->
  rs !! k' = Some r' -> accepted_upto faults k' rs w ->
  faults r' (after (take k' rs) w) = Some e' ->
  k = k' /\ r = r' /\ e = e'.
Proof.
  intros Hk Hacc Hf Hk' Hacc' Hf'.
  destruct (Nat.lt_total k k') as [Hlt|[->|Hlt]].
  - rewrite (Hacc' k r Hlt Hk) in Hf. done.
  - rewrite Hk in Hk'. injection Hk' as <-. rewrite Hf in Hf'. by injection Hf' as <-.
  - rewrite (Hacc k' r' Hlt Hk') in Hf'. done.
Qed.

(** ** The script's claims *)

Lemma dev_environment :
  ({[ "environment" := "dev" ]} : gmap string string) !! "environment" = Some "dev".
Proof. reflexivity. Qed.

(** C1. The environment variable [environment] selects the schema the
    script creates into: whatever its value, every call the run issues,
    accepted or refused, is made against the schema [silver] of the database
    [quickstart_] followed by that value; with a session at hand the first
    of them is the creation of the function, and a run that ends normally
    has issued all eight. *)
Theorem target_schema_selected environ session_fault faults w environment :
  environ !! "environment" = Some environment ->
  Forall (fun r => request_target r = ("quickstart_" +:+ environment, "silver"))
         (issued (fst (run environ session_fault faults w)))
  /\ (session_fault = None ->
      head (issued (fst (run environ session_fault faults w)))
      = Some (CreateFunction ("quickstart_" +:+ environment, "silver")
                map_city_to_airport or_replace))
  /\ (snd (run environ session_fault faults w) = inr () ->
      length (issued (fst (run environ session_fault faults w))) = 8).
Proof.
  intros He. split_and!.
  - apply issued_Forall. intros env He'. rewrite He in He'. injection He' as <-.
    apply requests_target.
  - intros Hs.
    pose proof (run_spec environ session_fault faults w) as H.
    destruct (run environ session_fault faults w) as [s' [e|u]]; simpl.
    + destruct H as [(? & _)|[(_ & ? & _)|(_ & env & k & r & He' & _ & _ & _ & _ & ->)]];
        [congruence|congruence|].
      rewrite He in He'. by injection He' as <-.
    + destruct H as (_ & env & He' & _ & _ & ->).
      rewrite He in He'. by injection He' as <-.
  - intros Hok.
    pose proof (run_spec environ session_fault faults w) as H.
    destruct (run environ session_fault faults w) as [s' [e|u]]; simpl in *; [done|].
    by destruct H as (_ & env & _ & _ & _ & ->).
Qed.

Lemma target_schema_selected_witness :
  ({[ "environment" := "dev" ]} : gmap string string) !! "environment" = Some "dev"
  /\ Forall (fun r => request_target r = ("quickstart_dev", "silver"))
       (issued (fst (run {[ "environment" := "dev" ]} None (fun _ _ => None)
                       empty_warehouse))).
Proof.
  split; [reflexivity|].
  apply (target_schema_selected {[ "environment" := "dev" ]} None
           (fun _ _ => None) empty_warehouse "dev").
  reflexivity.
Defined.

(** C4. The file declares one user-defined function. A run with a
    session at hand and the variable set asks for the creation of exactly
    one function, whether or not the platform accepts the call, and no run
    asks for more; deployed into an empty warehouse, the script leaves
    exactly one function there. It is [map_city_to_airport]: the scalar
    function [get_city_for_airport] with the single argument [iata] of type
    VARCHAR, returning VARCHAR. *)
Theorem declares_one_function environ session_fault faults w :
  (forall environment,
     session_fault = None ->
     environ !! "environment" = Some environment ->
     created_functions (issued (fst (run environ session_fault faults w)))
     = [ map_city_to_airport ])
  /\ (created_functions (issued (fst (run environ session_fault faults w))) = []
      \/ created_functions (issued (fst (run environ session_fault faults w)))
         = [ map_city_to_airport ])
  /\ (forall environment,
        environ !! "environment" = Some environment ->
        functions (deploy environ empty_warehouse)
        = {[ ("quickstart_" +:+ environment, "silver",
              ("get_city_for_airport", [ "VARCHAR" ]))
             := map_city_to_airport ]})
  /\ udf_name map_city_to_airport = "get_city_for_airport"
  /\ arguments map_city_to_airport
     = [ {| arg_name := "iata"; arg_datatype := "VARCHAR" |} ]
  /\ length (arguments map_city_to_airport) = 1
  /\ return_type map_city_to_airport = ReturnDataType "VARCHAR"
  /\ is_scalar map_city_to_airport = true.
Proof.
  assert (Htake : forall env k,
            created_functions (take (S k) (requests env)) = [ map_city_to_airport ]).
  { intros env k. do 8 (destruct k as [|k]; [reflexivity|]). reflexivity. }
  split_and!; try reflexivity.
  - intros environment Hs He.
    pose proof (run_spec environ session_fault faults w) as H.
    destruct (run environ session_fault faults w) as [s' [e|u]]; simpl.
    + destruct H as [(? & _)|[(_ & ? & _)|(_ & env & k & r & _ & _ & _ & _ & _ & ->)]];
        [congruence|congruence|]. apply Htake.
    + by destruct H as (_ & env & _ & _ & _ & ->).
  - destruct (run_shape environ session_fault faults w)
      as [[-> _]|(env & n & m & _ & _ & -> & _)]; [by left|].
    destruct n as [|n]; [by left|]. right. apply Htake.
  - intros environment He. rewrite deploy_eq, He. simpl.
    apply insert_empty.
Qed.

Lemma declares_one_function_witness :
  created_functions
    (issued (fst (run {[ "environment" := "dev" ]} None
                    (fun _ _ => Some (APIError 403 "Forbidden")) empty_warehouse)))
  = [ map_city_to_airport ]
  /\ functions (deploy {[ "environment" := "dev" ]} empty_warehouse)
     = {[ ("quickstart_dev", "silver", ("get_city_for_airport", [ "VARCHAR" ]))
          := map_city_to_airport ]}.
Proof.
  destruct (declares_one_function {[ "environment" := "dev" ]} None
              (fun _ _ => Some (APIError 403 "Forbidden")) empty_warehouse)
    as (Hone & _ & Hdeploy & _).
  split.
  - exact (Hone "dev" eq_refl dev_environment).
  - exact (Hdeploy "dev" dev_environment).
Defined.

(** C5. All the script does to the warehouse is to create or replace its
    function and the views of [pipeline]. Every call of a run is in
    [or_replace] mode and creates [map_city_to_airport] or a view of
    [pipeline]; a view whose name is none of the seven names of [pipeline],
    and a function whose name is not [get_city_for_airport], is after the
    run what it was before, in every schema, however the run ends. *)
Theorem only_creates_or_replaces environ session_fault faults w :
  Forall (fun r => request_mode r = or_replace)
         (issued (fst (run environ session_fault faults w)))
  /\ Forall (fun r =>
               (exists target, r = CreateFunction target map_city_to_airport or_replace)
               \/ (exists target view,
                      view ∈ pipeline /\ r = CreateView target view or_replace))
            (issued (fst (run environ session_fault faults w)))
  /\ view_name <$> pipeline
     = [ "flight_emissions"; "flight_punctuality"; "flights_from_home";
         "weather_forecast"; "major_us_cities"; "zip_codes_in_city";
         "weather_joined_with_major_cities" ]
  /\ (forall db sch n,
        n ∉ view_name <$> pipeline ->
        views (objects (fst (run environ session_fault faults w))) !! (db, sch, n)
        = views w !! (db, sch, n))
  /\ (forall db sch n sig,
        n <> "get_city_for_airport" ->
        functions (objects (fst (run environ session_fault faults w)))
          !! (db, sch, (n, sig))
        = functions w !! (db, sch, (n, sig))).
Proof.
  split_and!.
  - apply issued_Forall. intros env _. apply requests_or_replace.
  - apply issued_Forall. intros env _. unfold requests.
    constructor; [left; by eexists|].
    apply Forall_forall. intros r Hr.
    apply list_elem_of_fmap in Hr as (v & -> & Hv). right. by eexists _, v.
  - reflexivity.
  - intros db sch n Hn.
    destruct (run_shape environ session_fault faults w)
      as [[_ ->]|(env & k & m & _ & _ & _ & ->)]; [done|].
    apply after_view_frame. intros Hin. apply Hn.
    apply list_elem_of_fmap in Hin as (v & -> & Hv).
    apply list_elem_of_fmap_2.
    apply created_views_take in Hv. by rewrite created_views_requests in Hv.
  - intros db sch n sig Hn.
    destruct (run_shape environ session_fault faults w)
      as [[_ ->]|(env & k & m & _ & _ & _ & ->)]; [done|].
    apply after_function_frame. intros Hin. apply Hn.
    apply list_elem_of_fmap in Hin as (f & -> & Hf).
    apply created_functions_take in Hf. rewrite created_functions_requests in Hf.
    by apply list_elem_of_singleton in Hf as ->.
Qed.

Lemma only_creates_or_replaces_witness :
  ("attractions" ∉ view_name <$> pipeline)
  /\ views (objects (fst (run {[ "environment" := "dev" ]} None (fun _ _ => None)
                           empty_warehouse)))
       !! ("quickstart_dev", "silver", "attractions")
     = views empty_warehouse !! ("quickstart_dev", "silver", "attractions").
Proof.
  assert (H : "attractions" ∉ view_name <$> pipeline).
  { apply (bool_decide_unpack _). by vm_compute. }
  split; [exact H|].
  destruct (only_creates_or_replaces {[ "environment" := "dev" ]} None
              (fun _ _ => None) empty_warehouse) as (_ & _ & _ & Hv & _).
  apply Hv, H.
Defined.

(** C6. Replaying the definitions is idempotent. With the script taken as
    the function [deploy] on warehouse states, two runs in succession leave,
    from any state, the state one run leaves: the same views and the same
    function under the same names. On a platform that may refuse calls, a
    second run after one that ended normally changes no object, wherever the
    second run stops. *)
Theorem replay_idempotent environ w :
  deploy environ (deploy environ w) = deploy environ w
  /\ (forall session_fault faults session_fault' faults' s1,
        run environ session_fault faults w = (s1, inr ()) ->
        objects (fst (run environ session_fault' faults' (objects s1)))
        = objects s1).
Proof.
  split.
  - rewrite !deploy_eq. destruct (environ !! "environment") as [env|]; [|done].
    rewrite <- (firstn_all (requests env)) at 1. apply after_take_after.
  - intros sf faults sf' faults' s1 Hrun.
    pose proof (run_spec environ sf faults w) as H. rewrite Hrun in H.
    destruct H as (_ & env & He & _ & Ho & _).
    destruct (run_shape environ sf' faults' (objects s1))
      as [[_ ->]|(env' & n & m & He' & _ & _ & ->)]; [done|].
    rewrite He in He'. injection He' as <-.
    rewrite Ho. apply after_take_after.
Qed.

Lemma replay_idempotent_witness :
  run {[ "environment" := "dev" ]} None (fun _ _ => None) empty_warehouse
  = ({| objects := deploy {[ "environment" := "dev" ]} empty_warehouse;
        issued := requests "dev" |}, inr ())
  /\ objects (fst (run {[ "environment" := "dev" ]}
                     (Some (APIError 401 "Unauthorized")) (fun _ _ => None)
                     (deploy {[ "environment" := "dev" ]} empty_warehouse)))
     = deploy {[ "environment" := "dev" ]} empty_warehouse.
Proof.
  assert (H : run {[ "environment" := "dev" ]} None (fun _ _ => None) empty_warehouse
              = ({| objects := deploy {[ "environment" := "dev" ]} empty_warehouse;
                    issued := requests "dev" |}, inr ())) by reflexivity.
  split; [exact H|].
  exact (proj2 (replay_idempotent {[ "environment" := "dev" ]} empty_warehouse)
           None (fun _ _ => None) (Some (APIError 401 "Unauthorized"))
           (fun _ _ => None) _ H).
Defined.

(** C7. The script handles no error and retries nothing. A run raises [e]
    exactly when opening the session raises [e], or the environment variable
    is unset and [e] is the [KeyError] of the lookup, or the platform
    refuses with [e] a call whose predecessors it all accepted. In that
    last case the refused call is the last one issued, each call was issued
    once, and the objects of the calls before it are in the warehouse. *)
Theorem no_error_handling environ session_fault faults w :
  (forall e,
     snd (run environ session_fault faults w) = inl e
     <-> (session_fault = Some e
          \/ (session_fault = None /\ environ !! "environment" = None
              /\ e = KeyError "environment")
          \/ (session_fault = None
              /\ exists env k r,
                  environ !! "environment" = Some env
                  /\ requests env !! k = Some r
                  /\ accepted_upto faults k (requests env) w
                  /\ faults r (after (take k (requests env)) w) = Some e)))
  /\ (forall env k r e,
        session_fault = None ->
        environ !! "environment" = Some env ->
        requests env !! k = Some r ->
        accepted_upto faults k (requests env) w ->
        faults r (after (take k (requests env)) w) = Some e ->
        issued (fst (run environ session_fault faults w))
        = take (S k) (requests env)
        /\ objects (fst (run environ session_fault faults w))
           = after (take k (requests env)) w
        /\ Forall (fun r' => stored r' (objects (fst (run environ session_fault faults w))))
             (take k (requests env))).
Proof.
  pose proof (run_spec environ session_fault faults w) as H.
  destruct (run environ session_fault faults w) as [s' [e0|u]]; simpl.
  - split.
    + intros e. split.
      * intros [= <-].
        destruct H as [(? & _)|[(? & ? & ? & _)|(? & env & k & r & ? & ? & ? & ? & _)]];
          [by left|by right; left|].
        right; right. split; [done|]. by exists env, k, r.
      * intros [Hs|[(Hs & He & ->)|(Hs & env & k & r & He & Hk & Hacc & Hf)]].
        -- destruct H as [(? & _)|[(? & _)|(? & _)]]; congruence.
        -- destruct H as [(? & _)|[(_ & _ & ? & _)|(_ & env & k & r & ? & _)]];
             congruence.
        -- destruct H as [(? & _)|[(_ & ? & _)|(_ & env' & k' & r' & He' & Hk' & Hacc' & Hf' & _)]];
             [congruence|congruence|].
           rewrite He in He'. injection He' as <-.
           by destruct (first_refusal_unique _ _ _ _ _ _ _ _ _ Hk Hacc Hf Hk' Hacc' Hf')
             as (_ & _ & ->).
    + intros env k r e Hs He Hk Hacc Hf.
      destruct H as [(? & _)|[(_ & ? & _)|(_ & env' & k' & r' & He' & Hk' & Hacc' & Hf' & Ho & Hi)]];
        [congruence|congruence|].
      rewrite He in He'. injection He' as <-.
      destruct (first_refusal_unique _ _ _ _ _ _ _ _ _ Hk Hacc Hf Hk' Hacc' Hf')
        as (-> & _ & _).
      split_and!; [done|done|]. rewrite Ho.
      apply stored_after, NoDup_take_requests.
  - destruct H as (Hs & env & He & Hacc & Ho & Hi). split.
    + intros e. split; [done|].
      intros [Hs'|[(_ & He' & _)|(_ & env' & k & r & He' & Hk & _ & Hf)]];
        [congruence|congruence|].
      rewrite He in He'. injection He' as <-.
      rewrite (Hacc k r) in Hf; [done| |done].
      by eapply lookup_lt_Some.
    + intros env' k r e _ He' Hk _ Hf.
      rewrite He in He'. injection He' as <-.
      rewrite (Hacc k r) in Hf; [done| |done].
      by eapply lookup_lt_Some.
Qed.

Lemma no_error_handling_witness :
  let faults := fun r (_ : warehouse) =>
    if bool_decide (created_name r = "flights_from_home")
    then Some (APIError 400 "SQL compilation error") else None in
  accepted_upto faults 3 (requests "dev") empty_warehouse
  /\ issued (fst (run {[ "environment" := "dev" ]} None faults empty_warehouse))
     = take 4 (requests "dev")
  /\ Forall (fun r' => stored r' (objects (fst (run {[ "environment" := "dev" ]}
                                                 None faults empty_warehouse))))
       (take 3 (requests "dev")).
Proof.
  intros faults.
  assert (Hacc : accepted_upto faults 3 (requests "dev") empty_warehouse).
  { intros [|[|[|j]]] r Hj Hl; [| | |lia]; by injection Hl as <-. }
  split; [exact Hacc|].
  destruct (proj2 (no_error_handling {[ "environment" := "dev" ]} None faults
                     empty_warehouse)
              "dev" 3 (CreateView (silver_schema "dev") flights_from_home or_replace)
              (APIError 400 "SQL compilation error")
              eq_refl dev_environment eq_refl Hacc eq_refl) as (Hi & _ & Hst).
  split; [exact Hi|exact Hst].
Defined.

Lemma requests_dependencies env i target view mode n :
  requests env !! i = Some (CreateView target view mode) ->
  n ∈ dependencies view ->
  exists j r, j < i /\ requests env !! j = Some r /\ created_name r = n.
Proof.
  intros Hi Hn.
  do 8 (destruct i as [|i];
        [simpl in Hi; try discriminate Hi; injection Hi as <- <- <-;
         match type of Hn with
         | _ ∈ ?d =>
             let d' := eval vm_compute in d in
             replace d with d' in Hn by (vm_compute; reflexivity)
         end;
         repeat (apply elem_of_cons in Hn as [->|Hn]);
         try (by inversion Hn);
         first [ by exists 0; eexists; split; [lia|split; reflexivity]
               | by exists 1; eexists; split; [lia|split; reflexivity]
               | by exists 2; eexists; split; [lia|split; reflexivity]
               | by exists 4; eexists; split; [lia|split; reflexivity]
               | by exists 5; eexists; split; [lia|split; reflexivity]
               | by exists 6; eexists; split; [lia|split; reflexivity] ]
        |]).
  discriminate Hi.
Qed.

(** C10. The objects are created in an order that respects their
    dependencies. The calls of a run are the first few of: the function,
    then the views of [pipeline] in list order. A view created by a run
    refers, among the objects the file declares, only to ones created by
    earlier calls of the same run: [flights_from_home] to the function
    and to [flight_emissions] and [flight_punctuality],
    [weather_joined_with_major_cities] to [weather_forecast],
    [major_us_cities] and [zip_codes_in_city], the other five to none. *)
Theorem creation_order_respects_dependencies environ session_fault faults w :
  (issued (fst (run environ session_fault faults w)) = []
   \/ exists environment,
       environ !! "environment" = Some environment
       /\ issued (fst (run environ session_fault faults w))
          `prefix_of`
          CreateFunction (silver_schema environment) map_city_to_airport or_replace
          :: map (fun view => CreateView (silver_schema environment) view or_replace)
               pipeline)
  /\ (forall i target view mode n,
        issued (fst (run environ session_fault faults w)) !! i
        = Some (CreateView target view mode) ->
        n ∈ dependencies view ->
        exists j r,
          j < i
          /\ issued (fst (run environ session_fault faults w)) !! j = Some r
          /\ created_name r = n)
  /\ (fun view => (view_name view, dependencies view)) <$> pipeline
     = [ ("flight_emissions", []);
         ("flight_punctuality", []);
         ("flights_from_home",
           [ "get_city_for_airport"; "flight_emissions"; "flight_punctuality" ]);
         ("weather_forecast", []);
         ("major_us_cities", []);
         ("zip_codes_in_city", []);
         ("weather_joined_with_major_cities",
           [ "weather_forecast"; "major_us_cities"; "zip_codes_in_city" ]) ].
Proof.
  split_and!.
  - destruct (run_shape environ session_fault faults w)
      as [[-> _]|(env & n & m & He & _ & -> & _)]; [by left|].
    right. exists env. split; [done|]. apply prefix_take.
  - intros i target view mode n Hi Hn.
    destruct (run_shape environ session_fault faults w)
      as [[Hnil _]|(env & k & m & He & _ & Hiss & _)].
    + rewrite Hnil in Hi. done.
    + rewrite Hiss in *. apply lookup_take_Some in Hi as [Hi Hlt].
      destruct (requests_dependencies env i target view mode n Hi Hn)
        as (j & r & Hj & Hr & Hname).
      exists j, r. split_and!; [done| |done].
      rewrite lookup_take_lt; [done|lia].
  - by vm_compute.
Qed.

Lemma creation_order_respects_dependencies_witness :
  issued (fst (run {[ "environment" := "dev" ]} None (fun _ _ => None)
                 empty_warehouse)) !! 3
  = Some (CreateView (silver_schema "dev") flights_from_home or_replace)
  /\ "flight_punctuality" ∈ dependencies flights_from_home
  /\ exists j r,
       j < 3
       /\ issued (fst (run {[ "environment" := "dev" ]} None (fun _ _ => None)
                        empty_warehouse)) !! j = Some r
       /\ created_name r = "flight_punctuality".
Proof.
  assert (Hd : "flight_punctuality" ∈ dependencies flights_from_home).
  { apply (bool_decide_unpack _). by vm_compute. }
  split; [reflexivity|]. split; [exact Hd|].
  destruct (creation_order_respects_dependencies {[ "environment" := "dev" ]} None
              (fun _ _ => None) empty_warehouse) as (_ & H & _).
  exact (H 3 (silver_schema "dev") flights_from_home or_replace
           "flight_punctuality" eq_refl Hd).
Defined.



(** ** The handler's claims *)

Module HandlerFacts.
Import Handler.

Section Facts.

Context `{Interpreter}.

Lemma key_eqb_str k c : key_eqb k (PStr c) = true -> k = PStr c.
Proof.
  destruct k as [| | | |s| |]; simpl; try discriminate.
  intros Hs. by apply bool_decide_eq_true in Hs as ->.
Qed.

Lemma key_eqb_str_refl c : key_eqb (PStr c) (PStr c) = true.
Proof. simpl. by apply bool_decide_eq_true. Qed.

Lemma key_eqb_str_congr k0 k c :
  key_eqb k0 k = true -> key_eqb k0 (PStr c) = key_eqb k (PStr c).
Proof.
  destruct k0 as [|b0|n0|x0|s0|l0|l0], k as [|b|n|x|s|l|l]; simpl; try done.
  intros Hs. by apply bool_decide_eq_true in Hs as ->.
Qed.

(** Reading a string key after a store. *)
Lemma get_setitem_str d k v c :
  get (setitem d k v) (PStr c)
  = if key_eqb k (PStr c) then v else get d (PStr c).
Proof.
  induction d as [|[k0 v0] d IH]; simpl; [done|].
  destruct (key_eqb k0 k) eqn:Hk; simpl.
  - rewrite (key_eqb_str_congr k0 k c Hk). by destruct (key_eqb k (PStr c)).
  - rewrite IH. destruct (key_eqb k0 (PStr c)) eqn:Hk0; [|done].
    destruct (key_eqb k (PStr c)) eqn:Hk'; [|done].
    apply key_eqb_str in Hk0 as ->. apply key_eqb_str in Hk' as ->.
    by rewrite key_eqb_str_refl in Hk.
Qed.

Lemma comprehension_app l1 l2 d :
  comprehension (l1 ++ l2) d
  = match comprehension l1 d with
    | inl e => inl e
    | inr d' => comprehension l2 d'
    end.
Proof.
  revert d. induction l1 as [|a l1 IH]; intros d; simpl; [done|].
  destruct (getitem a 3) as [e|k]; [done|].
  destruct (getitem a 1) as [e|v]; [done|].
  destruct (hashable k); [apply IH|done].
Qed.

(** The comprehension stores every storable entry. *)
Lemma comprehension_total l d :
  Forall storable l -> exists d', comprehension l d = inr d'.
Proof.
  intros Hl. revert d. induction Hl as [|a l (k & v & Hk & Hv & Hh) _ IH]; intros d.
  - by exists d.
  - simpl. rewrite Hk, Hv, Hh. apply IH.
Qed.

(** Entries with another element 3 leave the value under [c] alone. *)
Lemma comprehension_get_other l d d' c :
  comprehension l d = inr d' ->
  Forall (fun a => getitem a 3 <> inr (PStr c)) l ->
  get d' (PStr c) = get d (PStr c).
Proof.
  intros Hc Hl. revert d Hc. induction Hl as [|a l Ha _ IH]; intros d Hc; simpl in Hc.
  - by injection Hc as <-.
  - destruct (getitem a 3) as [e|k]; [done|].
    destruct (getitem a 1) as [e|v]; [done|].
    destruct (hashable k); [|done].
    rewrite (IH _ Hc), get_setitem_str.
    destruct (key_eqb k (PStr c)) eqn:Hk; [|done].
    apply key_eqb_str in Hk as ->. done.
Qed.

(** The value under [c] is element 1 of the last entry with element 3
    equal to [c]. *)
Lemma comprehension_get_last before airport later d d' c city :
  comprehension (before ++ airport :: later) d = inr d' ->
  getitem airport 3 = inr (PStr c) ->
  getitem airport 1 = inr city ->
  Forall (fun a => getitem a 3 <> inr (PStr c)) later ->
  get d' (PStr c) = city.
Proof.
  intros Hc H3 H1 Hlater. rewrite comprehension_app in Hc.
  destruct (comprehension before d) as [e|d1]; [done|].
  simpl in Hc. rewrite H3, H1 in Hc. simpl in Hc.
  rewrite (comprehension_get_other _ _ _ _ Hc Hlater), get_setitem_str.
  by rewrite key_eqb_str_refl.
Qed.

(** On a column of strings, [apply] returns a row for each row. *)
Lemma apply_strings d df0 :
  Forall is_str df0 ->
  exists out,
    apply (city_of d) df0 = inr out
    /\ length out = length df0
    /\ forall i code,
         df0 !! i = Some (PStr code) ->
         out !! i = Some (get d (PStr (upper code))).
Proof.
  induction 1 as [|x df0 [s ->] _ (out & Hout & Hlen & Hrow)].
  - exists []. by split_and!.
  - exists (get d (PStr (upper s)) :: out). simpl. rewrite Hout.
    split_and!; [done|by rewrite Hlen|].
    intros [|i] code Hi; simpl in *; [by injection Hi as <-|by apply Hrow].
Qed.

(** A row that is [None] makes [apply] raise, unless an earlier row did. *)
Lemma apply_none d df0 :
  PNone ∈ df0 -> exists e, apply (city_of d) df0 = inl e.
Proof.
  induction df0 as [|x df0 IH]; intros Hin; [by inversion Hin|].
  apply elem_of_cons in Hin as [<-|Hin]; simpl; [by eexists|].
  destruct (city_of d x) as [e'|y]; [by eexists|].
  destruct (IH Hin) as [e He]. rewrite He. by eexists.
Qed.

Lemma apply_none_first d before later :
  Forall is_str before ->
  apply (city_of d) (before ++ PNone :: later) = inl AttributeError.
Proof.
  induction 1 as [|x before [s ->] _ IH]; simpl; [done|]. by rewrite IH.
Qed.

(** C3. The handler is a lookup. On an airport list whose entries can all
    be stored and a column of strings, [main] returns a row for each row.
    The row of a code is what the dict built from the list holds under the
    code in upper case, which is element 1, the city, of the entry whose
    element 3, the IATA code, is that string: the last one, should several
    entries carry the same code. This holds whatever [str.upper] does to a
    string. *)
Theorem main_looks_up_city airport_list entries df0 :
  iter airport_list = inr entries ->
  Forall storable entries ->
  Forall is_str df0 ->
  exists airports out,
    comprehension entries [] = inr airports
    /\ main airport_list df0 = inr out
    /\ length out = length df0
    /\ (forall i code,
          df0 !! i = Some (PStr code) ->
          out !! i = Some (get airports (PStr (upper code))))
    /\ (forall i code before airport later city,
          df0 !! i = Some (PStr code) ->
          entries = before ++ airport :: later ->
          getitem airport 3 = inr (PStr (upper code)) ->
          getitem airport 1 = inr city ->
          Forall (fun a => getitem a 3 <> inr (PStr (upper code))) later ->
          out !! i = Some city).
Proof.
  intros Hiter Hentries Hdf.
  destruct (comprehension_total entries [] Hentries) as [airports Hc].
  destruct (apply_strings airports df0 Hdf) as (out & Hout & Hlen & Hrow).
  exists airports, out. unfold main. rewrite Hiter, Hc.
  split_and!; [done|done|done|done|].
  intros i code before airport later city Hi -> H3 H1 Hlater.
  rewrite (Hrow i code Hi). f_equal.
  by apply (comprehension_get_last before airport later [] airports).
Qed.

(** C8. A code that is no entry's IATA code gives NULL, a NULL code
    raises. On an airport list whose entries can all be stored and a column
    of strings, the row of a string whose upper case is element 3 of no
    entry is [None]. A column with a [None] row makes [main] raise,
    whatever the airport list; when the list can be stored and the rows
    before are strings, the exception is the [AttributeError] of
    [iata.upper()]. This holds whatever [str.upper] does to a string. *)
Theorem main_unknown_code_and_null :
  (forall airport_list entries df0 i code,
     iter airport_list = inr entries ->
     Forall storable entries ->
     Forall is_str df0 ->
     df0 !! i = Some (PStr code) ->
     Forall (fun a => getitem a 3 <> inr (PStr (upper code))) entries ->
     exists out, main airport_list df0 = inr out /\ out !! i = Some PNone)
  /\ (forall airport_list df0,
        PNone ∈ df0 -> exists e, main airport_list df0 = inl e)
  /\ (forall airport_list entries before later,
        iter airport_list = inr entries ->
        Forall storable entries ->
        Forall is_str before ->
        main airport_list (before ++ PNone :: later) = inl AttributeError).
Proof.
  split_and!.
  - intros airport_list entries df0 i code Hiter Hentries Hdf Hi Hno.
    destruct (comprehension_total entries [] Hentries) as [airports Hc].
    destruct (apply_strings airports df0 Hdf) as (out & Hout & _ & Hrow).
    exists out. unfold main. rewrite Hiter, Hc. split; [done|].
    rewrite (Hrow i code Hi). f_equal.
    by rewrite (comprehension_get_other entries [] airports (upper code) Hc Hno).
  - intros airport_list df0 Hin. unfold main.
    destruct (iter airport_list) as [e|entries]; [by eexists|].
    destruct (comprehension entries []) as [e|airports]; [by eexists|].
    by apply apply_none.
  - intros airport_list entries before later Hiter Hentries Hbefore.
    destruct (comprehension_total entries [] Hentries) as [airports Hc].
    unfold main. rewrite Hiter, Hc. by apply apply_none_first.
Qed.

End Facts.

#[local] Existing Instance example_interpreter.

Lemma main_looks_up_city_witness :
  exists airports out,
    comprehension
      [ PList [ PStr (text "Goroka Airport"); PStr (text "Goroka");
                PStr (text "Papua New Guinea"); PStr (text "GKA") ];
        PList [ PStr (text "Tegel"); PStr (text "Berlin");
                PStr (text "Germany"); PStr (text "TXL") ] ] []
    = inr airports
    /\ main
         (PList
            [ PList [ PStr (text "Goroka Airport"); PStr (text "Goroka");
                      PStr (text "Papua New Guinea"); PStr (text "GKA") ];
              PList [ PStr (text "Tegel"); PStr (text "Berlin");
                      PStr (text "Germany"); PStr (text "TXL") ] ])
         [ PStr (text "txl"); PStr (text "gka") ]
       = inr out
    /\ out !! 1 = Some (PStr (text "Goroka")).
Proof.
  destruct (main_looks_up_city
              (PList
                 [ PList [ PStr (text "Goroka Airport"); PStr (text "Goroka");
                           PStr (text "Papua New Guinea"); PStr (text "GKA") ];
                   PList [ PStr (text "Tegel"); PStr (text "Berlin");
                           PStr (text "Germany"); PStr (text "TXL") ] ])
              [ PList [ PStr (text "Goroka Airport"); PStr (text "Goroka");
                        PStr (text "Papua New Guinea"); PStr (text "GKA") ];
                PList [ PStr (text "Tegel"); PStr (text "Berlin");
                        PStr (text "Germany"); PStr (text "TXL") ] ]
              [ PStr (text "txl"); PStr (text "gka") ])
    as (airports & out & Hc & Hm & _ & _ & Hlast).
  - reflexivity.
  - repeat constructor; by eexists _, _.
  - repeat constructor; by eexists.
  - exists airports, out. split_and!; [exact Hc|exact Hm|].
    apply (Hlast 1 (text "gka") []
             (PList [ PStr (text "Goroka Airport"); PStr (text "Goroka");
                      PStr (text "Papua New Guinea"); PStr (text "GKA") ])
             [ PList [ PStr (text "Tegel"); PStr (text "Berlin");
                       PStr (text "Germany"); PStr (text "TXL") ] ]
             (PStr (text "Goroka")));
      [reflexivity|reflexivity|reflexivity|reflexivity|].
    repeat constructor. discriminate.
Defined.

Lemma main_unknown_code_and_null_witness :
  (exists out,
     main (PList [ PList [ PStr (text "Tegel"); PStr (text "Berlin");
                           PStr (text "Germany"); PStr (text "TXL") ] ])
          [ PStr (text "zzz") ] = inr out
     /\ out !! 0 = Some PNone)
  /\ main (PList [ PList [ PStr (text "Tegel"); PStr (text "Berlin");
                           PStr (text "Germany"); PStr (text "TXL") ] ])
          [ PStr (text "txl"); PNone ]
     = inl AttributeError.
Proof.
  destruct (main_unknown_code_and_null (H := example_interpreter))
    as (Hunknown & _ & Hnull).
  split.
  - apply (Hunknown
             (PList [ PList [ PStr (text "Tegel"); PStr (text "Berlin");
                              PStr (text "Germany"); PStr (text "TXL") ] ])
             [ PList [ PStr (text "Tegel"); PStr (text "Berlin");
                       PStr (text "Germany"); PStr (text "TXL") ] ]
             [ PStr (text "zzz") ] 0 (text "zzz")).
    + reflexivity.
    + repeat constructor; by eexists _, _.
    + repeat constructor; by eexists.
    + reflexivity.
    + repeat constructor. discriminate.
  - apply (Hnull
             (PList [ PList [ PStr (text "Tegel"); PStr (text "Berlin");
                              PStr (text "Germany"); PStr (text "TXL") ] ])
             [ PList [ PStr (text "Tegel"); PStr (text "Berlin");
                       PStr (text "Germany"); PStr (text "TXL") ] ]
             [ PStr (text "txl") ] []).
    + reflexivity.
    + repeat constructor; by eexists _, _.
    + repeat constructor; by eexists.
Defined.

End HandlerFacts.

(** ** The claim on [flight_emissions] *)

Module EmissionsFacts.
Import Emissions.

(** What the [where] clause lets through. *)
Lemma where_clause_true r :
  where_clause r = Some true ->
  exists co2 n,
    estimated_co2_total_tonnes r = Some co2
    /\ seats r = Some n
    /\ Qeq_bool n 0 = false.
Proof.
  unfold where_clause, sql_neq, sql_is_not_null, sql_and.
  destruct (seats r) as [n|], (estimated_co2_total_tonnes r) as [co2|];
    simpl; try (destruct (Qeq_bool _ 0); discriminate); try discriminate.
  destruct (Qeq_bool n 0) eqn:Hn; simpl; [discriminate|].
  intros _. by exists co2, n.
Qed.

Lemma per_seat_defined r :
  where_clause r = Some true ->
  exists co2 n,
    estimated_co2_total_tonnes r = Some co2
    /\ seats r = Some n
    /\ ~ (n == 0)%Q
    /\ per_seat r = inr (Some (co2 / n)%Q).
Proof.
  intros (co2 & n & Hco2 & Hn & Hz)%where_clause_true.
  exists co2, n. split_and!; [done|done| |].
  - intros Heq. apply Qeq_bool_iff in Heq. congruence.
  - unfold per_seat, sql_div. by rewrite Hco2, Hn, Hz.
Qed.

Lemma each_per_seat rows :
  Forall (fun r => where_clause r = Some true) rows ->
  exists quotients,
    each per_seat rows = inr quotients
    /\ Forall (fun q => is_Some q) quotients.
Proof.
  induction 1 as [|r rows Hr _ (qs & Hqs & Hall)].
  - exists []. by split.
  - destruct (per_seat_defined r Hr) as (co2 & n & _ & _ & _ & Hq).
    exists (Some (co2 / n)%Q :: qs). simpl. rewrite Hq, Hqs.
    split; [done|]. constructor; [by eexists|done].
Qed.

Lemma selected_where table :
  Forall (fun r => where_clause r = Some true) (selected table).
Proof.
  apply Forall_forall. intros r Hr.
  by apply list_elem_of_filter in Hr as [Hr _].
Qed.

Lemma groups_where rows :
  Forall (fun r => where_clause r = Some true) rows ->
  Forall (fun g => Forall (fun r => where_clause r = Some true) (snd g))
         (groups rows).
Proof.
  intros Hrows. unfold groups. apply Forall_fmap, Forall_forall.
  intros k _. simpl. apply Forall_forall. intros r Hr.
  apply list_elem_of_filter in Hr as [_ Hr].
  revert r Hr. by apply Forall_forall.
Qed.

Lemma collect_total gs :
  Forall (fun g => Forall (fun r => where_clause r = Some true) (snd g)) gs ->
  exists out, collect gs = inr out /\ length out = length gs.
Proof.
  induction 1 as [|g gs Hg _ (out & Hout & Hlen)].
  - by exists [].
  - destruct (each_per_seat (snd g) Hg) as (qs & Hqs & _).
    simpl. unfold aggregate. rewrite Hqs, Hout.
    eexists. split; [done|]. simpl. by rewrite Hlen.
Qed.

(** C9. The query of [flight_emissions] divides only on rows that pass
    its [where] clause. Over every table the view evaluates without a
    division by zero; every row on which [estimated_co2_total_tonnes / seats]
    is evaluated has a seat count that is neither NULL nor zero and an
    emission that is not NULL, so that the quotient handed to [avg] is a
    number, not NULL. *)
Theorem per_seat_division_is_guarded table :
  (exists out, eval table = inr out)
  /\ Forall (fun r =>
               exists co2 n,
                 estimated_co2_total_tonnes r = Some co2
                 /\ seats r = Some n
                 /\ ~ (n == 0)%Q
                 /\ per_seat r = inr (Some (co2 / n)%Q))
            (divided table)
  /\ Forall (fun g =>
               exists quotients,
                 each per_seat (snd g) = inr quotients
                 /\ Forall (fun q => is_Some q) quotients)
            (groups (selected table)).
Proof.
  pose proof (groups_where (selected table) (selected_where table)) as Hg.
  split_and!.
  - destruct (collect_total _ Hg) as (out & Hout & _). by exists out.
  - unfold divided. apply Forall_forall. intros r Hr.
    apply list_elem_of_In, in_concat in Hr as (rows & Hrows & Hr).
    apply in_map_iff in Hrows as (g & <- & Hin).
    apply per_seat_defined.
    apply list_elem_of_In in Hin, Hr.
    pose proof (proj1 (Forall_forall _ _) Hg g Hin) as Hgr. simpl in Hgr.
    by apply (proj1 (Forall_forall _ _) Hgr r).
  - apply Forall_forall. intros g Hin.
    apply each_per_seat. by apply (proj1 (Forall_forall _ _) Hg g).
Qed.

(** A table with a flight without seats, one without an emission and one
    without a seat count next to two flights that count. *)
Example per_seat_division_example :
  eval
    [ {| departure_airport := Some "TXL"; arrival_airport := Some "SFO";
         estimated_co2_total_tonnes := Some 100%Q; seats := Some 200%Q |};
      {| departure_airport := Some "TXL"; arrival_airport := Some "SFO";
         estimated_co2_total_tonnes := Some 100%Q; seats := Some 0%Q |};
      {| departure_airport := Some "TXL"; arrival_airport := Some "SFO";
         estimated_co2_total_tonnes := None; seats := Some 10%Q |};
      {| departure_airport := Some "TXL"; arrival_airport := Some "JFK";
         estimated_co2_total_tonnes := Some 30%Q; seats := None |};
      {| departure_airport := Some "TXL"; arrival_airport := Some "SFO";
         estimated_co2_total_tonnes := Some 50%Q; seats := Some 50%Q |} ]
  = inr [ {| from_airport := Some "TXL"; to_airport := Some "SFO";
             co2_emissions_kg_per_person := Some (15000000 # 20000) |} ].
Proof. reflexivity. Qed.

End EmissionsFacts.

(** ** Further properties of the script *)

Lemma object_at_put_ne r x w :
  request_key r <> request_key x -> object_at r (put x w) = object_at r w.
Proof.
  destruct r as [t f m|t v m], x as [t' f' m'|t' v' m']; simpl; intros Hne;
    try done; rewrite lookup_insert_ne; congruence.
Qed.

Lemma object_at_after r rs w :
  request_key r ∉ request_key <$> rs ->
  object_at r (after rs w) = object_at r w.
Proof.
  revert w. induction rs as [|x rs IH]; intros w Hr; [done|].
  unfold after in *. simpl. rewrite IH.
  - apply object_at_put_ne. intros Heq. apply Hr. rewrite Heq. apply list_elem_of_here.
  - intros Hin. apply Hr. by apply list_elem_of_further.
Qed.

Lemma put_commute r1 r2 w :
  request_key r1 <> request_key r2 -> put r1 (put r2 w) = put r2 (put r1 w).
Proof.
  destruct r1 as [t f m|t v m], r2 as [t' f' m'|t' v' m']; simpl; intros Hne;
    try done; f_equal; apply insert_insert_ne; congruence.
Qed.

Lemma put_after_commute r rs w :
  request_key r ∉ request_key <$> rs ->
  put r (after rs w) = after rs (put r w).
Proof.
  revert w. induction rs as [|x rs IH]; intros w Hr; [done|].
  unfold after in *. simpl. rewrite IH.
  - f_equal. apply put_commute. intros Heq. apply Hr. rewrite Heq.
    apply list_elem_of_here.
  - intros Hin. apply Hr. by apply list_elem_of_further.
Qed.

(** Calls on different names can be made in either order. *)
Lemma after_commute rs1 rs2 w :
  (forall k, k ∈ request_key <$> rs1 -> k ∉ request_key <$> rs2) ->
  after rs1 (after rs2 w) = after rs2 (after rs1 w).
Proof.
  revert w. induction rs1 as [|r rs1 IH]; intros w Hk; [done|].
  change (after (r :: rs1) ?x) with (after rs1 (put r x)).
  rewrite put_after_commute.
  - apply IH. intros k Hin. apply Hk. by apply list_elem_of_further.
  - apply Hk. apply list_elem_of_here.
Qed.

Lemma request_key_target r1 r2 :
  request_key r1 = request_key r2 -> request_target r1 = request_target r2.
Proof.
  destruct r1 as [[d s] f m|[d s] v m], r2 as [[d' s'] f' m'|[d' s'] v' m'];
    simpl; try done.
  - unfold function_key_of. simpl. by intros [= -> -> _].
  - unfold view_key_of. simpl. by intros [= -> -> _].
Qed.

Lemma silver_schema_inj env1 env2 :
  silver_schema env1 = silver_schema env2 -> env1 = env2.
Proof. unfold silver_schema. intros [= H]. exact H. Qed.

(** Calls against one schema leave every other schema alone. *)
Lemma after_frame_target rs w target db sch :
  Forall (fun r => request_target r = target) rs ->
  (db, sch) <> target ->
  (forall n, views (after rs w) !! (db, sch, n) = views w !! (db, sch, n))
  /\ (forall sig,
        functions (after rs w) !! (db, sch, sig) = functions w !! (db, sch, sig)).
Proof.
  intros Hrs Hne. revert w.
  induction Hrs as [|r rs Hr _ IH]; intros w; [done|].
  unfold after in *. simpl.
  destruct (IH (put r w)) as [IHv IHf].
  split; intros x; rewrite ?IHv, ?IHf;
    destruct r as [[d s] f m|[d s] v m]; simpl in *; try done;
    apply lookup_insert_ne; unfold function_key_of, view_key_of; simpl;
    intros [= <- <- _]; by apply Hne.
Qed.

(** X1. A run that ends normally leaves the function and every view of
    [pipeline] in the target schema with the very definition the file
    declares, whatever was stored under those names before. *)
Theorem normal_run_stores_declarations environ session_fault faults w s' env :
  run environ session_fault faults w = (s', inr ()) ->
  environ !! "environment" = Some env ->
  functions (objects s')
    !! ("quickstart_" +:+ env, "silver", ("get_city_for_airport", [ "VARCHAR" ]))
  = Some map_city_to_airport
  /\ (forall view,
        view ∈ pipeline ->
        views (objects s') !! ("quickstart_" +:+ env, "silver", view_name view)
        = Some view).
Proof.
  intros Hrun He.
  pose proof (run_spec environ session_fault faults w) as H. rewrite Hrun in H.
  destruct H as (_ & env' & He' & _ & Ho & _).
  rewrite He in He'. injection He' as <-.
  pose proof (stored_after (requests env) w (NoDup_requests env)) as Hst.
  rewrite <- Ho in Hst. split.
  - by apply Forall_inv in Hst.
  - intros view Hv. apply Forall_inv_tail in Hst.
    apply (proj1 (Forall_forall _ _) Hst
             (CreateView (silver_schema env) view or_replace)).
    by apply (list_elem_of_fmap_2
                (fun view => CreateView (silver_schema env) view or_replace)).
Qed.

Lemma normal_run_stores_declarations_witness :
  views (deploy {[ "environment" := "dev" ]}
           {| functions := ∅;
              views := {[ ("quickstart_dev", "silver", "weather_forecast")
                          := attractions ]} |})
    !! ("quickstart_dev", "silver", "weather_forecast")
  = Some weather_forecast.
Proof.
  pose (w0 := {| functions := ∅;
                 views := {[ ("quickstart_dev", "silver", "weather_forecast")
                             := attractions ]} |}).
  assert (Hrun : run {[ "environment" := "dev" ]} None (fun _ _ => None) w0
                 = ({| objects := deploy {[ "environment" := "dev" ]} w0;
                       issued := requests "dev" |}, inr ())) by reflexivity.
  assert (Hin : weather_forecast ∈ pipeline).
  { unfold pipeline. do 3 apply list_elem_of_further. apply list_elem_of_here. }
  exact (proj2 (normal_run_stores_declarations {[ "environment" := "dev" ]} None
                  (fun _ _ => None) w0 _ "dev" Hrun dev_environment)
           weather_forecast Hin).
Defined.

(** X2. A run touches one schema only: a view or function of any name in
    another database, or in another schema of the target database, is after
    the run what it was before. *)
Theorem other_schemas_untouched environ session_fault faults w env db sch :
  environ !! "environment" = Some env ->
  (db, sch) <> ("quickstart_" +:+ env, "silver") ->
  (forall n,
     views (objects (fst (run environ session_fault faults w))) !! (db, sch, n)
     = views w !! (db, sch, n))
  /\ (forall sig,
        functions (objects (fst (run environ session_fault faults w)))
          !! (db, sch, sig)
        = functions w !! (db, sch, sig)).
Proof.
  intros He Hne.
  destruct (run_shape environ session_fault faults w)
    as [[_ ->]|(env' & n & m & He' & _ & _ & ->)]; [done|].
  rewrite He in He'. injection He' as <-.
  apply (after_frame_target _ w (silver_schema env)); [|done].
  apply Forall_take, requests_target.
Qed.

Lemma other_schemas_untouched_witness :
  views (objects (fst (run {[ "environment" := "dev" ]} None (fun _ _ => None)
                         {| functions := ∅;
                            views := {[ ("quickstart_prod", "silver", "weather_forecast")
                                        := attractions ]} |})))
    !! ("quickstart_prod", "silver", "weather_forecast")
  = Some attractions.
Proof.
  rewrite (proj1 (other_schemas_untouched {[ "environment" := "dev" ]} None
                    (fun _ _ => None) _ "dev" "quickstart_prod" "silver"
                    dev_environment ltac:(discriminate))).
  reflexivity.
Defined.

(** X3. The session is opened first and the variable read second, both
    before any call: when no session can be opened, or the variable
    [environment] is unset, the run raises without having issued a call and
    the warehouse is untouched; the session's exception wins over the
    [KeyError]. *)
Theorem nothing_issued_before_setup environ session_fault faults w :
  session_fault <> None \/ environ !! "environment" = None ->
  issued (fst (run environ session_fault faults w)) = []
  /\ objects (fst (run environ session_fault faults w)) = w
  /\ snd (run environ session_fault faults w)
     = inl (default (KeyError "environment") session_fault).
Proof.
  intros H. destruct session_fault as [e|] eqn:Hs.
  - by rewrite (run_session_fault environ (Some e) faults e w eq_refl).
  - destruct H as [H|H]; [done|].
    by rewrite (run_unset environ None faults w eq_refl H).
Qed.

Lemma nothing_issued_before_setup_witness :
  issued (fst (run ∅ (Some (APIError 401 "Unauthorized")) (fun _ _ => None)
                 empty_warehouse)) = []
  /\ snd (run ∅ (Some (APIError 401 "Unauthorized")) (fun _ _ => None)
            empty_warehouse)
     = inl (APIError 401 "Unauthorized").
Proof.
  destruct (nothing_issued_before_setup ∅ (Some (APIError 401 "Unauthorized"))
              (fun _ _ => None) empty_warehouse) as (Hi & _ & He).
  - left. discriminate.
  - split; [exact Hi|exact He].
Defined.

(** X4. Deployments for two environments do not interfere: deploying for
    one and then for the other leaves the state that the opposite order
    leaves. *)
Theorem deployments_commute environ1 environ2 w :
  deploy environ1 (deploy environ2 w) = deploy environ2 (deploy environ1 w).
Proof.
  rewrite !deploy_eq.
  destruct (environ1 !! "environment") as [env1|],
           (environ2 !! "environment") as [env2|]; try done.
  destruct (decide (env1 = env2)) as [->|Hne]; [done|].
  apply after_commute. intros k Hk1 Hk2.
  apply list_elem_of_fmap in Hk1 as (r1 & -> & Hr1).
  apply list_elem_of_fmap in Hk2 as (r2 & Heq & Hr2).
  apply request_key_target in Heq.
  rewrite (proj1 (Forall_forall _ _) (requests_target env1) r1 Hr1) in Heq.
  rewrite (proj1 (Forall_forall _ _) (requests_target env2) r2 Hr2) in Heq.
  by apply silver_schema_inj in Heq.
Qed.

(** X5. A call that was refused, or never made because an earlier one was
    refused, has stored nothing: when the platform refuses call [k], the
    names of call [k] and of all later calls hold after the run what they
    held before it. *)
Theorem refused_calls_store_nothing environ session_fault faults w env k r e j r' :
  session_fault = None ->
  environ !! "environment" = Some env ->
  requests env !! k = Some r ->
  accepted_upto faults k (requests env) w ->
  faults r (after (take k (requests env)) w) = Some e ->
  k <= j ->
  requests env !! j = Some r' ->
  object_at r' (objects (fst (run environ session_fault faults w)))
  = object_at r' w.
Proof.
  intros Hs He Hk Hacc Hf Hj Hr'.
  pose proof (run_spec environ session_fault faults w) as H.
  destruct (run environ session_fault faults w) as [s' [e0|u]]; simpl.
  - destruct H as [(? & _)|[(_ & ? & _)|(_ & env' & k' & r0 & He' & Hk' & Hacc' & Hf' & Ho & _)]];
      [congruence|congruence|].
    rewrite He in He'. injection He' as <-.
    destruct (first_refusal_unique _ _ _ _ _ _ _ _ _ Hk Hacc Hf Hk' Hacc' Hf')
      as (-> & _ & _).
    rewrite Ho. apply object_at_after. rewrite fmap_take.
    intros Hin. apply elem_of_take in Hin as (i & Hi & Hlt).
    pose proof (NoDup_requests env) as Hnd.
    assert (i = j); [|lia].
    eapply NoDup_lookup; [exact Hnd|exact Hi|].
    by rewrite list_lookup_fmap, Hr'.
  - destruct H as (_ & env' & He' & Hacc' & _).
    rewrite He in He'. injection He' as <-.
    rewrite (Hacc' k r) in Hf; [done| |done]. by eapply lookup_lt_Some.
Qed.

Lemma refused_calls_store_nothing_witness :
  let faults := fun r (_ : warehouse) =>
    if bool_decide (created_name r = "flights_from_home")
    then Some (APIError 400 "SQL compilation error") else None in
  object_at (CreateView (silver_schema "dev") weather_forecast or_replace)
    (objects (fst (run {[ "environment" := "dev" ]} None faults empty_warehouse)))
  = object_at (CreateView (silver_schema "dev") weather_forecast or_replace)
      empty_warehouse.
Proof.
  intros faults.
  apply (refused_calls_store_nothing {[ "environment" := "dev" ]} None faults
           empty_warehouse "dev" 3
           (CreateView (silver_schema "dev") flights_from_home or_replace)
           (APIError 400 "SQL compilation error") 4
           (CreateView (silver_schema "dev") weather_forecast or_replace)
           eq_refl dev_environment eq_refl).
  - intros [|[|[|i]]] r Hi Hl; [| | |lia]; by injection Hl as <-.
  - reflexivity.
  - lia.
  - reflexivity.
Defined.

(** ** Further properties of the handler *)

Module HandlerMore.
Import Handler.

Section More.

Context `{Interpreter}.

Lemma apply_app f l1 l2 :
  apply f (l1 ++ l2)
  = match apply f l1 with
    | inl e => inl e
    | inr out1 =>
        match apply f l2 with
        | inl e => inl e
        | inr out2 => inr (out1 ++ out2)
        end
    end.
Proof.
  induction l1 as [|x l1 IH]; simpl.
  - by destruct (apply f l2).
  - destruct (f x) as [e|y]; [done|]. rewrite IH.
    destruct (apply f l1) as [e|out1]; [done|].
    by destruct (apply f l2).
Qed.

Lemma apply_length f l out : apply f l = inr out -> length out = length l.
Proof.
  revert out. induction l as [|x l IH]; simpl; intros out Hout.
  - by injection Hout as <-.
  - destruct (f x) as [e|y]; [done|].
    destruct (apply f l) as [e|ys]; [done|].
    injection Hout as <-. simpl. by rewrite (IH ys).
Qed.

Lemma apply_ext f g l : (forall x, f x = g x) -> apply f l = apply g l.
Proof.
  intros Hfg. induction l as [|x l IH]; simpl; [done|]. by rewrite Hfg, IH.
Qed.

Lemma apply_fmap f (g : pyval -> pyval) l :
  apply f (g <$> l) = apply (fun x => f (g x)) l.
Proof.
  induction l as [|x l IH]; [done|]. rewrite fmap_cons. simpl. by rewrite IH.
Qed.

(** X6. The rows of a batch do not influence each other: [main] on two
    batches laid end to end returns the rows of the first followed by the
    rows of the second, and raises what the first of them to raise does. *)
Theorem main_on_appended_batches airport_list df1 df2 :
  main airport_list (df1 ++ df2)
  = match main airport_list df1 with
    | inl e => inl e
    | inr out1 =>
        match main airport_list df2 with
        | inl e => inl e
        | inr out2 => inr (out1 ++ out2)
        end
    end.
Proof.
  unfold main. destruct (iter airport_list) as [e|entries]; [done|].
  destruct (comprehension entries []) as [e|airports]; [done|].
  apply apply_app.
Qed.

(** X7. Whenever [main] returns, it returns one row for each row of the
    batch. *)
Theorem main_keeps_row_count airport_list df0 out :
  main airport_list df0 = inr out -> length out = length df0.
Proof.
  unfold main. destruct (iter airport_list) as [e|entries]; [done|].
  destruct (comprehension entries []) as [e|airports]; [done|].
  apply apply_length.
Qed.

(** X8. The lookup ignores the case of its input: [str.upper] leaving
    unchanged what it returns, putting the strings of the batch in upper
    case beforehand changes neither the rows returned nor the exception
    raised. *)
Theorem main_ignores_input_case airport_list df0 :
  (forall s, upper (upper s) = upper s) ->
  main airport_list (upper_row <$> df0) = main airport_list df0.
Proof.
  intros Hupper. unfold main.
  destruct (iter airport_list) as [e|entries]; [done|].
  destruct (comprehension entries []) as [e|airports]; [done|].
  rewrite apply_fmap. apply apply_ext.
  intros [| | | |s| |]; simpl; try done. by rewrite Hupper.
Qed.

Lemma matchable_storable_filter entries :
  Forall storable entries -> Forall storable (List.filter matchable entries).
Proof.
  intros Hall. apply Forall_forall. intros a Ha.
  apply list_elem_of_In, filter_In in Ha as [Ha _].
  apply list_elem_of_In in Ha. revert a Ha. by apply Forall_forall.
Qed.

(** The dicts built from a list and from its matchable entries agree on
    every string that upper-casing leaves as it is. *)
Lemma comprehension_matchable entries d1 d2 airports1 airports2 c :
  upper c = c ->
  get d1 (PStr c) = get d2 (PStr c) ->
  comprehension entries d1 = inr airports1 ->
  comprehension (List.filter matchable entries) d2 = inr airports2 ->
  get airports1 (PStr c) = get airports2 (PStr c).
Proof.
  intros Hc. revert d1 d2.
  induction entries as [|a entries IH]; simpl; intros d1 d2 Hd H1 H2.
  - injection H1 as <-. by injection H2 as <-.
  - destruct (getitem a 3) as [e|k] eqn:Hk; [done|].
    destruct (getitem a 1) as [e|v] eqn:Hv; [done|].
    destruct (hashable k) eqn:Hh; [|done].
    destruct (matchable a) eqn:Hm.
    + unfold matchable in Hm. rewrite Hk in Hm.
      destruct k as [|b|n|x|s|l|l]; try discriminate Hm.
      simpl in H2. rewrite Hk, Hv in H2. simpl in H2.
      apply (IH (setitem d1 (PStr s) v) (setitem d2 (PStr s) v)); [|done|done].
      rewrite !HandlerFacts.get_setitem_str. by rewrite Hd.
    + apply (IH (setitem d1 k v) d2); [|done|done].
      rewrite HandlerFacts.get_setitem_str.
      destruct (key_eqb k (PStr c)) eqn:Hkc; [|done].
      apply HandlerFacts.key_eqb_str in Hkc as ->.
      unfold matchable in Hm. rewrite Hk in Hm.
      by rewrite (bool_decide_true _ Hc) in Hm.
Qed.

(** X9. Only entries whose element 3 is a string in upper case can be
    found. [str.upper] leaving unchanged what it returns, on an airport
    list whose entries can all be stored [main] returns what it returns on
    the list without the entries whose element 3 is not a string, or is a
    string that upper-casing changes. *)
Theorem main_ignores_unmatchable_entries entries df0 :
  (forall s, upper (upper s) = upper s) ->
  Forall storable entries ->
  main (PList entries) df0 = main (PList (List.filter matchable entries)) df0.
Proof.
  intros Hupper Hentries. unfold main. simpl.
  destruct (HandlerFacts.comprehension_total entries [] Hentries) as [a1 H1].
  destruct (HandlerFacts.comprehension_total _ [] (matchable_storable_filter _ Hentries))
    as [a2 H2].
  rewrite H1, H2. apply apply_ext.
  intros [| | | |s| |]; simpl; try done. f_equal.
  by apply (comprehension_matchable entries [] [] a1 a2 (upper s) (Hupper s)).
Qed.

(** X10. One short entry fails every batch. When an entry of the airport
    list is a list of fewer than four elements and the entries before it can
    be stored, [main] raises [IndexError] whatever the batch, the empty
    batch included. *)
Theorem main_short_entry_raises before items later df0 :
  Forall storable before ->
  length items < 4 ->
  main (PList (before ++ PList items :: later)) df0 = inl IndexError.
Proof.
  intros Hbefore Hlen. unfold main. simpl.
  rewrite HandlerFacts.comprehension_app.
  destruct (HandlerFacts.comprehension_total before [] Hbefore) as [d ->].
  simpl. rewrite (lookup_ge_None_2 items 3); [done|lia].
Qed.

End More.

Lemma ascii_upper_idemp s : ascii_upper (ascii_upper s) = ascii_upper s.
Proof.
  unfold ascii_upper. rewrite map_map. apply map_ext. intros c.
  destruct (N.leb 97 c && N.leb c 122)%bool eqn:Hc; [|by rewrite Hc].
  apply andb_true_iff in Hc as [_ Hc]. apply N.leb_le in Hc.
  assert (Hlow : N.leb 97 (c - 32) = false) by (apply N.leb_gt; lia).
  by rewrite Hlow.
Qed.

#[local] Existing Instance example_interpreter.

Lemma main_keeps_row_count_witness :
  main (PList [ PList [ PStr (text "Tegel"); PStr (text "Berlin");
                        PStr (text "Germany"); PStr (text "TXL") ] ])
       [ PStr (text "txl"); PStr (text "zzz"); PStr (text "TXL") ]
  = inr [ PStr (text "Berlin"); PNone; PStr (text "Berlin") ]
  /\ length [ PStr (text "Berlin"); PNone; PStr (text "Berlin") ]
     = length [ PStr (text "txl"); PStr (text "zzz"); PStr (text "TXL") ].
Proof.
  assert (Hmain : main (PList [ PList [ PStr (text "Tegel"); PStr (text "Berlin");
                                        PStr (text "Germany"); PStr (text "TXL") ] ])
                       [ PStr (text "txl"); PStr (text "zzz"); PStr (text "TXL") ]
                  = inr [ PStr (text "Berlin"); PNone; PStr (text "Berlin") ])
    by reflexivity.
  split; [exact Hmain|]. exact (main_keeps_row_count _ _ _ Hmain).
Defined.

Lemma main_ignores_input_case_witness :
  main (PList [ PList [ PStr (text "Tegel"); PStr (text "Berlin");
                        PStr (text "Germany"); PStr (text "TXL") ] ])
       (upper_row <$> [ PStr (text "txl"); PNone ])
  = main (PList [ PList [ PStr (text "Tegel"); PStr (text "Berlin");
                          PStr (text "Germany"); PStr (text "TXL") ] ])
         [ PStr (text "txl"); PNone ].
Proof.
  apply (main_ignores_input_case (H := example_interpreter)).
  exact ascii_upper_idemp.
Defined.

Lemma main_ignores_unmatchable_entries_witness :
  main (PList [ PList [ PStr (text "Tegel"); PStr (text "Berlin");
                        PStr (text "Germany"); PStr (text "txl") ];
                PList [ PStr (text "Goroka Airport"); PStr (text "Goroka");
                        PStr (text "Papua New Guinea"); PStr (text "GKA") ];
                PList [ PStr (text "Heliport"); PStr (text "Nowhere");
                        PStr (text "Germany"); PNone ] ])
       [ PStr (text "txl"); PStr (text "gka") ]
  = main (PList [ PList [ PStr (text "Goroka Airport"); PStr (text "Goroka");
                          PStr (text "Papua New Guinea"); PStr (text "GKA") ] ])
         [ PStr (text "txl"); PStr (text "gka") ].
Proof.
  apply (main_ignores_unmatchable_entries (H := example_interpreter)
           [ PList [ PStr (text "Tegel"); PStr (text "Berlin");
                     PStr (text "Germany"); PStr (text "txl") ];
             PList [ PStr (text "Goroka Airport"); PStr (text "Goroka");
                     PStr (text "Papua New Guinea"); PStr (text "GKA") ];
             PList [ PStr (text "Heliport"); PStr (text "Nowhere");
                     PStr (text "Germany"); PNone ] ]
           [ PStr (text "txl"); PStr (text "gka") ]).
  - exact ascii_upper_idemp.
  - repeat constructor; by eexists _, _.
Defined.

Lemma main_short_entry_raises_witness :
  main (PList [ PList [ PStr (text "Tegel"); PStr (text "Berlin");
                        PStr (text "Germany"); PStr (text "TXL") ];
                PList [ PStr (text "Goroka Airport"); PStr (text "Goroka");
                        PStr (text "Papua New Guinea") ] ])
       []
  = inl IndexError.
Proof.
  apply (main_short_entry_raises (H := example_interpreter)
           [ PList [ PStr (text "Tegel"); PStr (text "Berlin");
                     PStr (text "Germany"); PStr (text "TXL") ] ]
           [ PStr (text "Goroka Airport"); PStr (text "Goroka");
             PStr (text "Papua New Guinea") ] [] []).
  - repeat constructor; by eexists _, _.
  - simpl. lia.
Defined.

End HandlerMore.

(** ** Further properties of the views *)

Module EmissionsMore.
Import Emissions.

Lemma each_length f rows out : each f rows = inr out -> length out = length rows.
Proof.
  revert out. induction rows as [|r rows IH]; simpl; intros out H.
  - by injection H as <-.
  - destruct (f r) as [e|x]; [done|].
    destruct (each f rows) as [e|xs]; [done|].
    injection H as <-. simpl. by rewrite (IH xs).
Qed.

Lemma sql_avg_some xs :
  xs <> [] -> Forall (fun q => is_Some q) xs -> is_Some (sql_avg xs).
Proof.
  intros Hne Hall. unfold sql_avg.
  destruct Hall as [|x xs [y ->] _]; [done|]. simpl.
  by eexists.
Qed.

Lemma groups_keys rows : map fst (groups rows) = remove_dups (map group_key rows).
Proof. unfold groups. rewrite map_map. simpl. apply map_id. Qed.

Lemma groups_nonempty rows :
  Forall (fun g => snd g <> []) (groups rows).
Proof.
  unfold groups. apply Forall_forall. intros g Hg.
  apply list_elem_of_In, in_map_iff in Hg as (k & <- & Hk). simpl.
  apply list_elem_of_In, elem_of_remove_dups, list_elem_of_In, in_map_iff in Hk
    as (r & Hr & Hin).
  intros Hnil.
  assert (Hrin : r ∈ filter (fun r => group_key r = k) rows).
  { apply list_elem_of_filter. split; [done|by apply list_elem_of_In]. }
  rewrite Hnil in Hrin. by inversion Hrin.
Qed.

Lemma collect_keys gs out :
  collect gs = inr out ->
  map (fun row => (from_airport row, to_airport row)) out = map fst gs.
Proof.
  revert out. induction gs as [|[[d a] rows] gs IH]; simpl; intros out H.
  - by injection H as <-.
  - unfold aggregate in H. simpl in H.
    destruct (each per_seat rows) as [e|qs]; [done|].
    destruct (collect gs) as [e|out']; [done|].
    injection H as <-. simpl. by rewrite (IH out').
Qed.

Lemma collect_not_null gs :
  Forall (fun g => Forall (fun r => where_clause r = Some true) (snd g)) gs ->
  Forall (fun g => snd g <> []) gs ->
  exists out,
    collect gs = inr out
    /\ Forall (fun row => is_Some (co2_emissions_kg_per_person row)) out.
Proof.
  induction 1 as [|g gs Hg _ IH]; intros Hne.
  - by exists [].
  - apply Forall_cons in Hne as [Hg0 Hne].
    destruct (IH Hne) as (out & Hout & Hall).
    destruct (EmissionsFacts.each_per_seat (snd g) Hg) as (qs & Hqs & Hsome).
    simpl. unfold aggregate. rewrite Hqs, Hout. eexists. split; [done|].
    constructor; [|done]. simpl.
    destruct (sql_avg_some qs) as [q ->]; [|done|by eexists].
    intros ->. apply each_length in Hqs. simpl in Hqs.
    destruct (snd g); [done|discriminate].
Qed.

(** X11. The view [flight_emissions] has one row for each pair of
    departure and arrival airport that occurs among the rows passing the
    [where] clause, and no pair twice. *)
Theorem one_row_per_route table :
  exists out,
    eval table = inr out
    /\ map (fun row => (from_airport row, to_airport row)) out
       = remove_dups (map group_key (selected table))
    /\ NoDup (map (fun row => (from_airport row, to_airport row)) out).
Proof.
  destruct (EmissionsFacts.collect_total _
              (EmissionsFacts.groups_where _ (EmissionsFacts.selected_where table)))
    as (out & Hout & _).
  exists out. unfold eval.
  pose proof (collect_keys _ _ Hout) as Hk. rewrite groups_keys in Hk.
  split_and!; [done|done|]. rewrite Hk. apply NoDup_remove_dups.
Qed.

(** X12. The emission per person is never NULL in the view: every group
    has a row, and every row of a group gives a quotient for [avg] to
    average. *)
Theorem emission_per_person_not_null table :
  exists out,
    eval table = inr out
    /\ Forall (fun row => is_Some (co2_emissions_kg_per_person row)) out.
Proof.
  apply collect_not_null.
  - apply EmissionsFacts.groups_where, EmissionsFacts.selected_where.
  - apply groups_nonempty.
Qed.

(** X13. A row without a seat count, with a seat count of zero, or
    without an emission has no influence on the view: a NULL seat count is
    kept out by [seats != 0], whose value on it is NULL and not true. *)
Theorem rejected_row_has_no_influence table1 r table2 :
  seats r = None
  \/ (exists n, seats r = Some n /\ (n == 0)%Q)
  \/ estimated_co2_total_tonnes r = None ->
  eval (table1 ++ r :: table2) = eval (table1 ++ table2).
Proof.
  intros Hr. unfold eval, selected.
  rewrite !filter_app, filter_cons_False; [done|].
  intros (co2 & n & Hco2 & Hn & Hz)%EmissionsFacts.where_clause_true.
  destruct Hr as [Hr|[(n' & Hn' & Hz')|Hr]]; [congruence| |congruence].
  rewrite Hn in Hn'. injection Hn' as <-.
  apply Qeq_bool_iff in Hz'. congruence.
Qed.

Lemma rejected_row_has_no_influence_witness :
  eval
    ([ {| departure_airport := Some "TXL"; arrival_airport := Some "SFO";
          estimated_co2_total_tonnes := Some 100%Q; seats := Some 200%Q |} ]
     ++ {| departure_airport := Some "TXL"; arrival_airport := Some "SFO";
           estimated_co2_total_tonnes := Some 30%Q; seats := None |}
     :: [])
  = eval
      ([ {| departure_airport := Some "TXL"; arrival_airport := Some "SFO";
            estimated_co2_total_tonnes := Some 100%Q; seats := Some 200%Q |} ]
       ++ []).
Proof.
  apply (rejected_row_has_no_influence
           [ {| departure_airport := Some "TXL"; arrival_airport := Some "SFO";
                estimated_co2_total_tonnes := Some 100%Q; seats := Some 200%Q |} ]
           {| departure_airport := Some "TXL"; arrival_airport := Some "SFO";
              estimated_co2_total_tonnes := Some 30%Q; seats := None |}
           []).
  left. reflexivity.
Defined.

End EmissionsMore.

Module PunctualityFacts.
Import Punctuality.

Lemma status_groups_nonempty rows :
  Forall (fun g => snd g <> []) (groups rows).
Proof.
  unfold groups. apply Forall_forall. intros g Hg.
  apply list_elem_of_In, in_map_iff in Hg as (k & <- & Hk). simpl.
  apply list_elem_of_In, elem_of_remove_dups, list_elem_of_In, in_map_iff in Hk
    as (r & Hr & Hin).
  intros Hnil.
  assert (Hrin : r ∈ filter (fun r => group_key r = k) rows).
  { apply list_elem_of_filter. split; [done|by apply list_elem_of_In]. }
  rewrite Hnil in Hrin. by inversion Hrin.
Qed.

Lemma sql_count_le {A} (xs : list (option A)) :
  (0 <= sql_count xs <= Z.of_nat (length xs))%Z.
Proof.
  unfold sql_count. split; [lia|].
  apply inj_le. induction xs as [|[x|] xs IH]; cbn in *; lia.
Qed.

(** The percentage of one group that has a row. *)
Lemma aggregate_bounds g :
  snd g <> [] ->
  exists row q,
    aggregate g = inr row
    /\ punctual_pct row = Some q
    /\ (0 <= q)%Q /\ (q <= 100)%Q.
Proof.
  intros Hne. unfold aggregate, Emissions.sql_div, sql_count_star.
  pose proof (sql_count_le (map punctual (snd g))) as [Hc0 Hcn].
  rewrite length_map in Hcn.
  set (c := sql_count (map punctual (snd g))) in *.
  set (n := Z.of_nat (length (snd g))) in *.
  assert (Hn : (0 < n)%Z).
  { subst n. destruct (snd g); [done|simpl; lia]. }
  assert (Hnq : (0 < inject_Z n)%Q) by (unfold Qlt; simpl; lia).
  destruct (Qeq_bool (inject_Z n) 0) eqn:Hz.
  { apply Qeq_bool_iff in Hz. rewrite Hz in Hnq. by apply Qlt_irrefl in Hnq. }
  eexists _, _. split; [reflexivity|]. simpl. split; [reflexivity|]. split.
  - apply Qmult_le_0_compat; [|discriminate].
    apply Qle_shift_div_l; [done|]. rewrite Qmult_0_l.
    unfold Qle. simpl. lia.
  - apply Qle_trans with (1 * 100)%Q; [|discriminate].
    apply Qmult_le_compat_r; [|discriminate].
    apply Qle_shift_div_r; [done|]. rewrite Qmult_1_l.
    rewrite <- Zle_Qle. exact Hcn.
Qed.

Lemma collect_bounds gs :
  Forall (fun g => snd g <> []) gs ->
  exists out,
    collect gs = inr out
    /\ Forall (fun row =>
                 exists q, punctual_pct row = Some q /\ (0 <= q)%Q /\ (q <= 100)%Q)
              out.
Proof.
  induction 1 as [|g gs Hg _ (out & Hout & Hall)].
  - by exists [].
  - destruct (aggregate_bounds g Hg) as (row & q & Hrow & Hq & H0 & H100).
    exists (row :: out). simpl. rewrite Hrow, Hout. split; [done|].
    constructor; [by exists q|done].
Qed.

(** X14. The view [flight_punctuality] divides by the count of all rows
    of a group without a guard, and needs none: a group has a row, so over
    every table the view evaluates without a division by zero, and the
    percentage of each of its rows is a number from 0 to 100, never NULL. *)
Theorem punctual_pct_is_a_percentage table :
  exists out,
    eval table = inr out
    /\ Forall (fun row =>
                 exists q, punctual_pct row = Some q /\ (0 <= q)%Q /\ (q <= 100)%Q)
              out.
Proof.
  destruct (collect_bounds (groups (selected table))
              (status_groups_nonempty (selected table))) as (out & Hout & Hall).
  exists out. split; [exact Hout|exact Hall].
Qed.

(** Two punctual arrivals out of three; the flight without a recorded
    timeliness does not count. *)
Example punctual_pct_example :
  eval
    [ {| departure_iata_airport_code := Some "TXL";
         arrival_iata_airport_code := Some "SFO";
         arrival_actual_ingate_timeliness := Some "OnTime" |};
      {| departure_iata_airport_code := Some "TXL";
         arrival_iata_airport_code := Some "SFO";
         arrival_actual_ingate_timeliness := Some "Delayed" |};
      {| departure_iata_airport_code := Some "TXL";
         arrival_iata_airport_code := Some "SFO";
         arrival_actual_ingate_timeliness := None |};
      {| departure_iata_airport_code := Some "TXL";
         arrival_iata_airport_code := Some "SFO";
         arrival_actual_ingate_timeliness := Some "Early" |} ]
  = inr [ {| from_code := Some "TXL"; to_code := Some "SFO";
             punctual_pct := Some (200 # 3) |} ].
Proof. reflexivity. Qed.

End PunctualityFacts.

Module WeatherFacts.
Import Weather.

Lemma sql_avg_null xs :
  Emissions.sql_avg xs = None <-> Forall (fun x => x = None) xs.
Proof.
  unfold Emissions.sql_avg. split.
  - induction xs as [|[x|] xs IH]; cbn; [constructor|discriminate|].
    intros H. constructor; [done|]. by apply IH.
  - induction 1 as [|x xs -> _ IH]; [done|]. exact IH.
Qed.

(** X15. The view [weather_forecast] has one row for each postal code
    that occurs among the rows of country [US], and no postal code twice; a
    row of another country, or of no country, has no influence on it. *)
Theorem one_row_per_postal_code :
  (forall table,
     map zip (eval table) = remove_dups (map postal_code (selected table))
     /\ NoDup (map zip (eval table)))
  /\ (forall table1 r table2,
        country r <> Some "US" ->
        eval (table1 ++ r :: table2) = eval (table1 ++ table2)).
Proof.
  split.
  - intros table.
    assert (H : map zip (eval table)
                = remove_dups (map postal_code (selected table))).
    { unfold eval, groups. rewrite !map_map. simpl. apply map_id. }
    split; [exact H|]. rewrite H. apply NoDup_remove_dups.
  - intros table1 r table2 Hr. unfold eval, selected.
    rewrite !filter_app, filter_cons_False; [done|].
    unfold where_clause, sql_eq.
    destruct (country r) as [c|]; [|discriminate].
    destruct (String.eqb c "US") eqn:Hc; [|discriminate].
    apply String.eqb_eq in Hc as ->. done.
Qed.

Lemma one_row_per_postal_code_witness :
  eval ([] ++ {| postal_code := Some "10115"; country := Some "DE";
                 avg_temperature_air_2m_f := Some 50%Q;
                 avg_humidity_relative_2m_pct := None;
                 avg_cloud_cover_tot_pct := None;
                 probability_of_precipitation_pct := None |} :: [])
  = eval ([] ++ []).
Proof.
  apply (proj2 one_row_per_postal_code []
           {| postal_code := Some "10115"; country := Some "DE";
              avg_temperature_air_2m_f := Some 50%Q;
              avg_humidity_relative_2m_pct := None;
              avg_cloud_cover_tot_pct := None;
              probability_of_precipitation_pct := None |} []).
  discriminate.
Defined.

(** X16. An average of the view is NULL exactly when the forecast rows
    of that postal code in the US all lack the value; shown for each of the
    four averaged columns. *)
Theorem average_null_iff_no_value table row :
  row ∈ eval table ->
  (avg_temperature_air_f row = None
   <-> forall r, r ∈ selected table -> postal_code r = zip row ->
                 avg_temperature_air_2m_f r = None)
  /\ (avg_relative_humidity_pct row = None
      <-> forall r, r ∈ selected table -> postal_code r = zip row ->
                    avg_humidity_relative_2m_pct r = None)
  /\ (avg_cloud_cover_pct row = None
      <-> forall r, r ∈ selected table -> postal_code r = zip row ->
                    avg_cloud_cover_tot_pct r = None)
  /\ (precipitation_probability_pct row = None
      <-> forall r, r ∈ selected table -> postal_code r = zip row ->
                    probability_of_precipitation_pct r = None).
Proof.
  intros Hrow. unfold eval, groups in Hrow.
  apply list_elem_of_In, in_map_iff in Hrow as (g & <- & Hg).
  apply in_map_iff in Hg as (k & <- & _). simpl.
  assert (Hcol : forall col : forecast_day -> option Q,
            Emissions.sql_avg
              (map col (filter (fun r => postal_code r = k) (selected table))) = None
            <-> forall r, r ∈ selected table -> postal_code r = k -> col r = None).
  { intros col. rewrite sql_avg_null. split.
    - intros Hall r Hr Hk.
      apply (proj1 (Forall_forall _ _) Hall (col r)).
      apply list_elem_of_In, in_map, list_elem_of_In, list_elem_of_filter. done.
    - intros Hall. apply Forall_forall. intros x Hx.
      apply list_elem_of_In, in_map_iff in Hx as (r & <- & Hr).
      apply list_elem_of_In, list_elem_of_filter in Hr as [Hk Hr]. by apply Hall. }
  split_and!; apply Hcol.
Qed.

Lemma average_null_iff_no_value_witness :
  {| zip := Some "94105";
     avg_temperature_air_f := Some (60 # 1);
     avg_relative_humidity_pct := None;
     avg_cloud_cover_pct := None;
     precipitation_probability_pct := None |}
  ∈ eval [ {| postal_code := Some "94105"; country := Some "US";
              avg_temperature_air_2m_f := Some 60%Q;
              avg_humidity_relative_2m_pct := None;
              avg_cloud_cover_tot_pct := None;
              probability_of_precipitation_pct := None |} ]
  /\ forall r,
       r ∈ selected [ {| postal_code := Some "94105"; country := Some "US";
                         avg_temperature_air_2m_f := Some 60%Q;
                         avg_humidity_relative_2m_pct := None;
                         avg_cloud_cover_tot_pct := None;
                         probability_of_precipitation_pct := None |} ] ->
       postal_code r = Some "94105" ->
       avg_humidity_relative_2m_pct r = None.
Proof.
  assert (H : {| zip := Some "94105";
                 avg_temperature_air_f := Some (60 # 1);
                 avg_relative_humidity_pct := None;
                 avg_cloud_cover_pct := None;
                 precipitation_probability_pct := None |}
              ∈ eval [ {| postal_code := Some "94105"; country := Some "US";
                          avg_temperature_air_2m_f := Some 60%Q;
                          avg_humidity_relative_2m_pct := None;
                          avg_cloud_cover_tot_pct := None;
                          probability_of_precipitation_pct := None |} ]).
  { apply list_elem_of_here. }
  split; [exact H|].
  destruct (average_null_iff_no_value _ _ H) as (_ & Hh & _).
  apply Hh. reflexivity.
Defined.

End WeatherFacts.
